(** * brewberry.actors ("Flying Circus"): gevent based actors

    A shallow embedding of [src/brewberry/actors.py] and of the two test
    scenarios that exercise it ([src/tests/test_actors_link.py],
    [src/tests/test_actors_state_machine.py]).

    The Python module is written against gevent.  The part of gevent it
    relies on is modelled explicitly:
    - a [Greenlet] ("proc") is either running or dead with an optional
      exception; [ready], [successful] and [exception] read that status;
    - [proc.link cb] / [proc.link_exception cb] append to the greenlet's
      links; when the greenlet dies its links are handed to the hub, which
      calls them one at a time ([link_exception] ones only for a greenlet
      that died with an exception); linking to a greenlet that is already
      dead schedules the callback at once;
    - [proc.kill exc] makes a live greenlet die with [exc] and does nothing
      to a dead one;
    - [Queue(maxsize)] is a bounded FIFO whose [put_nowait] raises [Full]
      when [maxsize] items are waiting;
    - [spawn_later] parks a call until the hub runs it.

    Scheduling is explicit: the system moves by [Action]s (an actor handles
    one message, the hub runs one notification, a timer fires, an outside
    caller uses the API), so every interleaving is a list of actions.  The
    handling of one message is one action: a behaviour is the list of calls
    it makes on the runtime ([Prog]) and does not yield in between.

    A monitor may be an address or a plain function.  What a plain function
    does is the caller's business; its call is recorded in the [log] of the
    state, together with what the module hands to [Logger] and what the hub
    reports for an exception in a callback. *)

From stdpp Require Import gmap strings list fin_maps pretty.

Set Warnings "-register-all".
Open Scope string_scope.
Open Scope list_scope.
Open Scope nat_scope.

(** ** Constants and exceptions *)

Definition MAX_QUEUE_SIZE : nat := 1024.

Definition KillerJoke : string := "__KillerJoke__".
Definition Monitor : string := "__Monitor__".
Definition Link : string := "__Link__".
Definition TrapLink : string := "__TrapLink__".
Definition ActorInfo : string := "__ActorInfo__".

(** The exception classes of the module ([Killed], [KilledByLink],
    [UndeliveredMessage]), the built-in ones the code raises or catches, and
    whatever else a behaviour may raise. *)
Inductive Exn : Type :=
| Killed
| KilledByLink
| UndeliveredMessage
| TypeError
| KeyError
| AttributeError
| OtherError (msg : string).

#[global] Instance Exn_eq_dec : EqDecision Exn.
Proof. solve_decision. Defined.

(** [class KilledByLink(Killed)]. *)
Definition is_Killed (e : Exn) : bool :=
  match e with
  | Killed | KilledByLink => true
  | _ => false
  end.

Definition is_TypeError (e : Exn) : bool :=
  match e with
  | TypeError => true
  | _ => false
  end.

(** ** Values *)

(** [ActorInfoTuple]; [links], [monitored_by] and [monitors] are always the
    empty tuple in the source. *)
Record ActorInfoTuple : Type := mkActorInfoTuple {
  info_links : list nat;
  info_mailbox_size : nat;
  info_monitored_by : list nat;
  info_monitors : list nat;
  info_running : bool;
  info_successful : bool;
  info_exception : option Exn;
  info_exc_info : option Exn
}.

(** Python values that travel in messages.  A function object is named by
    its definition and carries the values it closes over; an address is the
    index of its actor; [VRemoveWhenDone name] is the closure
    [remove_when_done] that [register name _] creates. *)
Inductive Value : Type :=
| VNone
| VBool (b : bool)
| VInt (z : Z)
| VStr (s : string)
| VTuple (l : list Value)
| VFunc (name : string) (env : list Value)
| VAddr (a : nat)
| VQueue (q : nat)
| VExn (e : Exn)
| VInfo (i : ActorInfoTuple)
| VRemoveWhenDone (name : string).

Abbreviation Kwargs := (gmap string Value).

(** A mailbox item [(retries, args, kwargs)]. *)
Record Msg : Type := mkMsg {
  retries : nat;
  msg_args : list Value;
  msg_kwargs : Kwargs
}.

(** [tok in args] for an interned string [tok]: equality with a string of the
    same characters, false for every other kind of value. *)
Definition is_str (tok : string) (v : Value) : bool :=
  match v with
  | VStr s => bool_decide (s = tok)
  | _ => false
  end.

Definition in_args (tok : string) (args : list Value) : bool :=
  existsb (is_str tok) args.

(** Python truth value, for [if not next_func]. *)
Definition truthy (v : Value) : bool :=
  match v with
  | VNone => false
  | VBool b => b
  | VInt z => negb (z =? 0)%Z
  | VStr s => negb (bool_decide (s = ""))
  | VTuple l => negb (bool_decide (length l = 0%nat))
  | _ => true
  end.

Definition exn_value (e : option Exn) : Value :=
  match e with
  | Some x => VExn x
  | None => VNone
  end.

Inductive Result (A : Type) : Type :=
| Returned (v : A)
| Raised (e : Exn).
Arguments Returned {A} v.
Arguments Raised {A} e.

(** ** Greenlets, links and actors *)

Inductive Status : Type :=
| Running
| Done (e : option Exn).

#[global] Instance Status_eq_dec : EqDecision Status.
Proof. solve_decision. Defined.

(** A link of a greenlet.  The address makes exactly three kinds:
    - [proc.link(lambda dead_proc: mon(func, dead_proc.exception))],
    - [x.link_exception(lambda p: target.kill(KilledByLink))],
    - [proc.link_exception(lambda dead_proc:
         me._address(trap_exit=(address, dead_proc.exception)))]. *)
Inductive ProcLink : Type :=
| LMonitor (mon : Value) (f : Value)
| LKill (target : nat)
| LTrap (me : nat) (address : nat).

(** True for the links made with [link_exception]. *)
Definition on_exception (l : ProcLink) : bool :=
  match l with
  | LMonitor _ _ => false
  | LKill _ | LTrap _ _ => true
  end.

(** One actor: the variables of one [spawn] call.  [func] is the parameter
    of [spawn] (never assigned again), [next_func] the loop variable of
    [actor_process], [mailbox] the queue, [proc] and [links] the greenlet. *)
Record Actor : Type := mkActor {
  func : Value;
  next_func : Value;
  mailbox : list Msg;
  proc : Status;
  links : list ProcLink
}.

(** What the run leaves behind for an observer. *)
Inductive Event : Type :=
| EvMonitor (dead : nat) (mon : Value) (f : Value) (e : option Exn)
| EvDropped (a : nat) (f : Value) (m : Msg)
| EvHubError (e : Exn).

Record State : Type := mkState {
  actors : list Actor;
  registry : gmap string nat;
  queues : gmap nat (list Value);
  timers : list (nat * Msg);
  pending : list (ProcLink * nat);
  log : list Event
}.

Definition empty_state : State :=
  mkState [] ∅ ∅ [] [] [].

(** ** State updates *)

Definition set_actors (f : list Actor → list Actor) (st : State) : State :=
  mkState (f (actors st)) (registry st) (queues st) (timers st) (pending st) (log st).

Definition set_registry (f : gmap string nat → gmap string nat) (st : State) : State :=
  mkState (actors st) (f (registry st)) (queues st) (timers st) (pending st) (log st).

Definition set_queues (f : gmap nat (list Value) → gmap nat (list Value)) (st : State) : State :=
  mkState (actors st) (registry st) (f (queues st)) (timers st) (pending st) (log st).

Definition set_timers (f : list (nat * Msg) → list (nat * Msg)) (st : State) : State :=
  mkState (actors st) (registry st) (queues st) (f (timers st)) (pending st) (log st).

Definition set_pending (f : list (ProcLink * nat) → list (ProcLink * nat)) (st : State) : State :=
  mkState (actors st) (registry st) (queues st) (timers st) (f (pending st)) (log st).

Definition add_log (ev : Event) (st : State) : State :=
  mkState (actors st) (registry st) (queues st) (timers st) (pending st) (log st ++ [ev]).

Definition upd_actor (a : nat) (f : Actor → Actor) (st : State) : State :=
  set_actors (alter f a) st.

Definition with_mailbox (mb : list Msg) (x : Actor) : Actor :=
  mkActor (func x) (next_func x) mb (proc x) (links x).

Definition with_next_func (v : Value) (x : Actor) : Actor :=
  mkActor (func x) v (mailbox x) (proc x) (links x).

Definition with_proc (s : Status) (x : Actor) : Actor :=
  mkActor (func x) (next_func x) (mailbox x) s (links x).

Definition with_links (ls : list ProcLink) (x : Actor) : Actor :=
  mkActor (func x) (next_func x) (mailbox x) (proc x) ls.

(** ** gevent primitives *)

(** [mailbox.put_nowait item]: [false] stands for [gevent.queue.Full]. *)
Definition put_nowait (a : nat) (m : Msg) (st : State) : State * bool :=
  match actors st !! a with
  | Some x =>
      if bool_decide (length (mailbox x) < MAX_QUEUE_SIZE)%nat
      then (upd_actor a (with_mailbox (mailbox x ++ [m])) st, true)
      else (st, false)
  | None => (st, false)
  end.

(** [proc.rawlink]: remember the link, or schedule it if the greenlet is
    already dead. *)
Definition rawlink (a : nat) (l : ProcLink) (st : State) : State :=
  match actors st !! a with
  | Some x =>
      match proc x with
      | Running => upd_actor a (with_links (links x ++ [l])) st
      | Done _ => set_pending (λ p, p ++ [(l, a)]) st
      end
  | None => st
  end.

(** The greenlet of [a] ends with [e]: the status is recorded and the links
    go to the hub. *)
Definition die (a : nat) (e : option Exn) (st : State) : State :=
  match actors st !! a with
  | Some x =>
      match proc x with
      | Running =>
          set_pending (λ p, p ++ ((λ l, (l, a)) <$> links x))
            (upd_actor a (λ y, with_links [] (with_proc (Done e) y)) st)
      | Done _ => st
      end
  | None => st
  end.

(** [proc.kill(exc)]. *)
Definition proc_kill (a : nat) (e : Exn) (st : State) : State :=
  die a (Some e) st.

Definition proc_status (a : nat) (st : State) : option Status :=
  proc <$> (actors st !! a).

Definition is_running (a : nat) (st : State) : bool :=
  bool_decide (proc_status a st = Some Running).

(** [proc.exception]. *)
Definition proc_exception (s : Status) : option Exn :=
  match s with
  | Running => None
  | Done e => e
  end.

(** [proc.ready()] and [proc.successful()]. *)
Definition proc_ready (s : Status) : bool :=
  match s with
  | Running => false
  | Done _ => true
  end.

Definition proc_successful (s : Status) : bool :=
  match s with
  | Done None => true
  | _ => false
  end.

(** ** Behaviours *)

Inductive SpawnMode : Type :=
| Plain
| Linked
| TrapLinked.

(** What a behaviour does when it is called: the calls it makes on the
    runtime, in order, and how it ends.  [PCall a args kwargs k] is
    [a( *args, **kwargs)] on an address, [PSpawn] one of [spawn],
    [spawn_link], [spawn_trap_link], [PQueuePut] a [put] on a shared
    unbounded gevent queue. *)
Inductive Prog : Type :=
| PReturn (v : Value)
| PRaise (e : Exn)
| PCall (a : nat) (args : list Value) (kwargs : Kwargs) (k : Value → Prog)
| PSpawn (mode : SpawnMode) (f : Value) (args : list Value) (kwargs : Kwargs)
    (k : Value → Prog)
| PQueuePut (q : nat) (v : Value) (k : Prog).

(** A function definition: the flag set by [@with_self_address] and the
    body, given the closed-over values and the call's arguments. *)
Record FuncDef : Type := mkFuncDef {
  with_self_address : bool;
  body : list Value → list Value → Kwargs → Prog
}.

Inductive Outcome : Type :=
| OReturn (v : Value)
| ORaise (e : Exn)
| OKilled.

Definition remove_when_done (name : string) (st : State) : State :=
  set_registry (delete name) st.

Definition whereis (name : string) (st : State) : option nat :=
  registry st !! name.

Definition registered (st : State) : gmap string nat :=
  registry st.

(** ** The address *)

Definition Full : Exn := OtherError "Full".

Definition monitor_branch (a : nat) (x : Actor) (kwargs : Kwargs) (st : State)
  : State * Result Value :=
  match kwargs !! "monitor" with
  | Some mon => (rawlink a (LMonitor mon (func x)) st, Returned (VAddr a))
  | None => (st, Raised KeyError)
  end.

Definition link_branch (a : nat) (me : option nat) (st : State)
  : State * Result Value :=
  match me with
  | Some m =>
      let st1 := rawlink m (LKill a) st in
      let st2 := rawlink a (LKill m) st1 in
      (st2, Returned (VAddr a))
  | None => (st, Raised AttributeError)
  end.

Definition trap_link_branch (a : nat) (me : option nat) (st : State)
  : State * Result Value :=
  match me with
  | Some m =>
      let st1 := rawlink m (LKill a) st in
      let st2 := rawlink a (LTrap m a) st1 in
      (st2, Returned (VAddr a))
  | None => (st, Raised AttributeError)
  end.

Definition actor_info_of (x : Actor) : ActorInfoTuple :=
  mkActorInfoTuple [] (length (mailbox x)) [] []
    (negb (proc_ready (proc x)))
    (proc_successful (proc x))
    (proc_exception (proc x))
    (proc_exception (proc x)).

Definition actor_info_branch (x : Actor) (st : State) : State * Result Value :=
  (st, Returned (VInfo (actor_info_of x))).

Definition killer_joke_branch (a : nat) (st : State) : State * Result Value :=
  (proc_kill a Killed st, Returned (VAddr a)).

Definition send_branch (a : nat) (args : list Value) (kwargs : Kwargs) (st : State)
  : State * Result Value :=
  match put_nowait a (mkMsg 0 args kwargs) st with
  | (st', true) => (st', Returned (VAddr a))
  | (_, false) => (st, Raised Full)
  end.

(** [except gevent.queue.Full: raise UndeliveredMessage()]. *)
Definition except_Full (r : State * Result Value) : State * Result Value :=
  match r with
  | (st, Raised e) =>
      if bool_decide (e = Full) then (st, Raised UndeliveredMessage) else (st, Raised e)
  | _ => r
  end.

(** [address( *args, **kwargs)] of actor [a], called from the greenlet [me]
    ([None] when the caller is not an actor's greenlet: such a greenlet has
    no [link_exception]).  An address exists only for a spawned actor; the
    first branch covers an index that is not one. *)
Definition address (a : nat) (me : option nat) (args : list Value) (kwargs : Kwargs)
    (st : State) : State * Result Value :=
  match actors st !! a with
  | None => (st, Raised (OtherError "no such actor"))
  | Some x =>
      except_Full
        (if in_args Monitor args then monitor_branch a x kwargs st
         else if in_args Link args then link_branch a me st
         else if in_args TrapLink args then trap_link_branch a me st
         else if in_args ActorInfo args then actor_info_branch x st
         else if in_args KillerJoke args then killer_joke_branch a st
         else send_branch a args kwargs st)
  end.

(** Calling a value that is expected to be an address. *)
Definition call_value (v : Value) (me : option nat) (args : list Value)
    (kwargs : Kwargs) (st : State) : State * Result Value :=
  match v with
  | VAddr a => address a me args kwargs st
  | _ => (st, Raised TypeError)
  end.

(** ** spawn and friends *)

(** [spawn]: a fresh mailbox and greenlet, then [address( *args, **kwargs)]. *)
Definition spawn (f : Value) (args : list Value) (kwargs : Kwargs)
    (me : option nat) (st : State) : State * Result Value :=
  let a := length (actors st) in
  let st1 := set_actors (λ l, l ++ [mkActor f f [] Running []]) st in
  address a me args kwargs st1.

Definition spawn_link (f : Value) (args : list Value) (kwargs : Kwargs)
    (me : option nat) (st : State) : State * Result Value :=
  match spawn f [VStr Link] ∅ me st with
  | (st1, Returned v) => call_value v me args kwargs st1
  | (st1, Raised e) => (st1, Raised e)
  end.

Definition spawn_trap_link (f : Value) (args : list Value) (kwargs : Kwargs)
    (me : option nat) (st : State) : State * Result Value :=
  match spawn f [VStr TrapLink] ∅ me st with
  | (st1, Returned v) => call_value v me args kwargs st1
  | (st1, Raised e) => (st1, Raised e)
  end.

Definition spawn_with (mode : SpawnMode) :=
  match mode with
  | Plain => spawn
  | Linked => spawn_link
  | TrapLinked => spawn_trap_link
  end.

Definition link (a : nat) (me : option nat) (st : State) : State * Result Value :=
  address a me [VStr Link] ∅ st.

Definition monitor (a : nat) (mon : Value) (me : option nat) (st : State)
  : State * Result Value :=
  address a me [VStr Monitor] {["monitor" := mon]} st.


Definition kill (a : nat) (me : option nat) (st : State) : State * Result Value :=
  address a me [VStr KillerJoke] ∅ st.

(** [register(name, addr)]. *)
Definition register (name : string) (addr : nat) (me : option nat) (st : State)
  : State * Result Value :=
  if bool_decide (is_Some (registry st !! name)) then (st, Raised KeyError)
  else
    match monitor addr (VRemoveWhenDone name) me st with
    | (st1, Returned _) => (set_registry <[name := addr]> st1, Returned VNone)
    | (st1, Raised e) => (st1, Raised e)
    end.

(** ** Running a behaviour *)

(** The calls of a behaviour, made from the greenlet of actor [me].  An
    exception of a call is not caught by the behaviour; a call during which
    [me] itself is killed does not come back. *)
Fixpoint exec (me : nat) (p : Prog) (st : State) : State * Outcome :=
  match p with
  | PReturn v => (st, OReturn v)
  | PRaise e => (st, ORaise e)
  | PCall a args kwargs k =>
      match address a (Some me) args kwargs st with
      | (st1, Returned v) =>
          if is_running me st1 then exec me (k v) st1 else (st1, OKilled)
      | (st1, Raised e) => (st1, ORaise e)
      end
  | PSpawn mode f args kwargs k =>
      match spawn_with mode f args kwargs (Some me) st with
      | (st1, Returned v) =>
          if is_running me st1 then exec me (k v) st1 else (st1, OKilled)
      | (st1, Raised e) => (st1, ORaise e)
      end
  | PQueuePut q v k =>
      exec me k (set_queues (λ qs, <[q := default [] (qs !! q) ++ [v]]> qs) st)
  end.

Section Runtime.

(** The function definitions of the program that uses the runtime. *)
Variable code : string → FuncDef.

(** [getattr(next_func, 'with_self_address', False)]. *)
Definition self_aware (v : Value) : bool :=
  match v with
  | VFunc name _ => with_self_address (code name)
  | _ => false
  end.

(** [next_func( *args, **kwargs)]: a function runs its body, an address is
    called, anything else is not callable. *)
Definition invoke (v : Value) (args : list Value) (kwargs : Kwargs) : Prog :=
  match v with
  | VFunc name env => body (code name) env args kwargs
  | VAddr a => PCall a args kwargs PReturn
  | _ => PRaise TypeError
  end.

(** One round of the [for] loop of [actor_process] in actor [a]: take the
    oldest message and handle it.  Nothing happens while the mailbox is
    empty or once the greenlet is dead. *)
Definition actor_process (a : nat) (st : State) : State :=
  match actors st !! a with
  | Some x =>
      match proc x, mailbox x with
      | Running, m :: rest =>
          let st1 := upd_actor a (with_mailbox rest) st in
          let args :=
            if self_aware (next_func x) then VAddr a :: msg_args m else msg_args m in
          match exec a (invoke (next_func x) args (msg_kwargs m)) st1 with
          | (st2, ORaise e) =>
              if is_TypeError e then
                if bool_decide (retries m < 8)%nat
                then set_timers (λ t, t ++ [(a, mkMsg (retries m + 1) args (msg_kwargs m))]) st2
                else add_log (EvDropped a (next_func x) (mkMsg (retries m) args (msg_kwargs m))) st2
              else die a (Some e) st2
          | (st2, OReturn v) =>
              let st3 := upd_actor a (with_next_func v) st2 in
              if truthy v then st3 else die a None st3
          | (st2, OKilled) => st2
          end
      | _, _ => st
      end
  | None => st
  end.

(** ** The hub *)

(** An exception in a callback's own greenlet is reported by the hub and
    goes no further. *)
Definition in_hub (r : State * Result Value) : State :=
  match r with
  | (st, Returned _) => st
  | (st, Raised e) => add_log (EvHubError e) st
  end.

(** [mon(func, exception)] for the value given as [monitor=]. *)
Definition call_monitor (dead : nat) (mon f : Value) (e : option Exn) (st : State)
  : State :=
  let st1 := add_log (EvMonitor dead mon f e) st in
  match mon with
  | VAddr m => in_hub (address m None [f; exn_value e] ∅ st1)
  | VRemoveWhenDone name => remove_when_done name st1
  | VFunc _ _ => st1
  | _ => add_log (EvHubError TypeError) st1
  end.

(** The hub calls one link of the dead greenlet [n.2]; a [link_exception]
    link is called only [if not source.successful()]. *)
Definition notify (n : ProcLink * nat) (st : State) : State :=
  let s := default Running (proc_status n.2 st) in
  if on_exception n.1 && proc_successful s then st
  else
    match n.1 with
    | LMonitor mon f => call_monitor n.2 mon f (proc_exception s) st
    | LKill target => proc_kill target KilledByLink st
    | LTrap me addr =>
        in_hub (address me None []
                  {["trap_exit" := VTuple [VAddr addr; exn_value (proc_exception s)]]} st)
    end.

Definition hub_step (st : State) : State :=
  match pending st with
  | n :: rest => notify n (set_pending (λ _, rest) st)
  | [] => st
  end.

(** The oldest [spawn_later(0.01, mailbox.put_nowait, msg)] comes due. *)
Definition timer_step (st : State) : State :=
  match timers st with
  | (a, m) :: rest =>
      let st1 := set_timers (λ _, rest) st in
      match put_nowait a m st1 with
      | (st2, true) => st2
      | (_, false) => add_log (EvHubError Full) st1
      end
  | [] => st
  end.

Fixpoint drain (fuel : nat) (st : State) : State :=
  match fuel with
  | O => st
  | S n => match pending st with
           | [] => st
           | _ => drain n (hub_step st)
           end
  end.

(** ** Schedules *)

Inductive Action : Type :=
| AStep (a : nat)
| AHub
| ATimer
| ACall (me : option nat) (a : nat) (args : list Value) (kwargs : Kwargs)
| ASpawn (mode : SpawnMode) (f : Value) (args : list Value) (kwargs : Kwargs)
| ARegister (name : string) (a : nat).

Definition do_action (act : Action) (st : State) : State :=
  match act with
  | AStep a => actor_process a st
  | AHub => hub_step st
  | ATimer => timer_step st
  | ACall me a args kwargs => (address a me args kwargs st).1
  | ASpawn mode f args kwargs => (spawn_with mode f args kwargs None st).1
  | ARegister name a => (register name a None st).1
  end.

Fixpoint run (acts : list Action) (st : State) : State :=
  match acts with
  | [] => st
  | act :: rest => run rest (do_action act st)
  end.

End Runtime.

(** ** Python parameter binding *)

(** Binding [( *args, **kwargs)] to the parameters of a [def]: positional
    values fill the parameters in order, the rest come from the named
    values or the defaults; too many values, a value given twice, a missing
    one or an unknown name is a [TypeError] ([None] here). *)
Fixpoint bind_params (params : list (string * option Value)) (args : list Value)
    (kwargs : Kwargs) : option (list Value) :=
  match params with
  | [] =>
      match args with
      | [] => if bool_decide (kwargs = ∅) then Some [] else None
      | _ :: _ => None
      end
  | (name, dflt) :: params' =>
      match args with
      | v :: args' =>
          match kwargs !! name with
          | Some _ => None
          | None => cons v <$> bind_params params' args' kwargs
          end
      | [] =>
          match kwargs !! name with
          | Some v => cons v <$> bind_params params' [] (delete name kwargs)
          | None =>
              match dflt with
              | Some v => cons v <$> bind_params params' [] kwargs
              | None => None
              end
          end
      end
  end.

(** ** The state machine scenario of the tests *)

Module StateMachine.

Definition ping : Value := VFunc "ping" [].
Definition pong : Value := VFunc "pong" [].
Definition my_monitor : Value := VFunc "my_monitor" [].
Definition catcher (q : Value) : Value := VFunc "catcher" [q].

(** The common shape of [ping] and [pong]:
    [queue.put('<label> %d' % i); if i == 0: return; self(queue, i - 1);
    return <other>]. *)
Definition ping_pong (label : string) (other : Value) (args : list Value)
    (kwargs : Kwargs) : Prog :=
  match bind_params [("self", None); ("queue", None); ("i", None)] args kwargs with
  | Some [self; queue; VInt i] =>
      match queue with
      | VQueue q =>
          PQueuePut q (VStr (label +:+ " " +:+ pretty i))
            (if bool_decide (i = 0%Z) then PReturn VNone
             else
               match self with
               | VAddr a =>
                   PCall a [queue; VInt (i - 1)] ∅ (λ _, PReturn other)
               | _ => PRaise TypeError
               end)
      | _ => PRaise AttributeError
      end
  | _ => PRaise TypeError
  end.

(** [my_monitor(q)] returns the closure [catcher]; [catcher(f, e)] puts
    [(f, e)] on [q] and returns nothing. *)
Definition my_monitor_body (args : list Value) (kwargs : Kwargs) : Prog :=
  match bind_params [("q", None)] args kwargs with
  | Some [q] => PReturn (catcher q)
  | _ => PRaise TypeError
  end.

Definition catcher_body (env args : list Value) (kwargs : Kwargs) : Prog :=
  match env, bind_params [("f", None); ("e", None)] args kwargs with
  | [VQueue q], Some [f; e] => PQueuePut q (VTuple [f; e]) (PReturn VNone)
  | [_], Some [_; _] => PRaise AttributeError
  | _, _ => PRaise TypeError
  end.

Definition code (name : string) : FuncDef :=
  if bool_decide (name = "ping") then mkFuncDef true (λ _, ping_pong "ping" pong)
  else if bool_decide (name = "pong") then mkFuncDef true (λ _, ping_pong "pong" ping)
  else if bool_decide (name = "my_monitor") then mkFuncDef false (λ _, my_monitor_body)
  else if bool_decide (name = "catcher") then mkFuncDef false catcher_body
  else mkFuncDef false (λ _ _ _, PRaise TypeError).

Definition response : nat := 0.
Definition monitor_response : nat := 1.

(** [test_state_machine] up to its first [response.get()]:
    [state_machine = spawn(ping, response, 5)],
    [mon = spawn(my_monitor, monitor_response)],
    [monitor(state_machine, mon)]. *)
Definition setup : State :=
  let st1 := (spawn ping [VQueue response; VInt 5] ∅ None empty_state).1 in
  let st2 := (spawn my_monitor [VQueue monitor_response] ∅ None st1).1 in
  (monitor 0 (VAddr 1) None st2).1.

Definition state_machine : nat := 0.
Definition mon : nat := 1.

(** The order in which gevent runs the greenlets once the test blocks: the
    state machine handles its messages until it returns, the monitor actor
    handles its first message, the hub delivers the termination, the
    monitor actor handles it. *)
Definition schedule : list Action :=
  replicate 6 (AStep state_machine) ++ [AStep mon; AHub; AStep mon].

Definition final : State := run code schedule setup.

(** How far the scenario has come, whatever the schedule: the number of
    messages the state machine has handled, whether the hub has delivered
    its termination, the number of messages the monitor actor has handled. *)
Definition Progress : Type := nat * bool * nat.

Definition at_progress (p : Progress) : State :=
  run code
    (replicate p.1.1 (AStep state_machine) ++
     (if p.1.2 then [AHub] else []) ++
     replicate p.2 (AStep mon))
    setup.

Definition advance (act : Action) (p : Progress) : Progress :=
  let '(k, fired, ms) := p in
  match act with
  | AStep 0 => if bool_decide (k < 6) then (S k, fired, ms) else p
  | AStep 1 =>
      match ms with
      | 0 => (k, fired, 1)
      | 1 => if fired then (k, fired, 2) else p
      | _ => p
      end
  | AHub => if bool_decide (k = 6) then (k, true, ms) else p
  | _ => p
  end.

Definition progress_ok (p : Progress) : Prop :=
  p.1.1 ≤ 6 ∧ p.2 ≤ 2 ∧ (p.1.2 = true → p.1.1 = 6) ∧ (p.2 = 2 → p.1.2 = true).

(** The actions of the scheduler, as opposed to calls from outside. *)
Definition scheduler_action (act : Action) : bool :=
  match act with
  | AStep _ | AHub | ATimer => true
  | _ => false
  end.

Definition expected : list Value :=
  [VStr "ping 5"; VStr "pong 4"; VStr "ping 3"; VStr "pong 2"; VStr "ping 1";
   VStr "pong 0"].

End StateMachine.

(** ** The link scenarios of the tests *)

Module LinkTest.

(** [test_link_two_actors]: [repeater1] returns itself; [repeater2] calls
    [link(actor1)] and returns [repeater1]; [mon] returns [monitor_actor],
    which appends the dead function to [dead_procs]. *)
Definition repeater1 : Value := VFunc "repeater1" [].
Definition repeater2 (actor1 : Value) : Value := VFunc "repeater2" [actor1].
Definition mon : Value := VFunc "mon" [].
Definition monitor_actor : Value := VFunc "monitor_actor" [].
Definition dead_procs : nat := 0.

Definition code (name : string) : FuncDef :=
  if bool_decide (name = "repeater1") then
    mkFuncDef false (λ _ args kwargs,
      match bind_params [] args kwargs with
      | Some _ => PReturn repeater1
      | None => PRaise TypeError
      end)
  else if bool_decide (name = "repeater2") then
    mkFuncDef false (λ env args kwargs,
      match env, bind_params [] args kwargs with
      | [VAddr actor1], Some _ => PCall actor1 [VStr Link] ∅ (λ _, PReturn repeater1)
      | _, _ => PRaise TypeError
      end)
  else if bool_decide (name = "mon") then
    mkFuncDef false (λ _ args kwargs,
      match bind_params [] args kwargs with
      | Some _ => PReturn monitor_actor
      | None => PRaise TypeError
      end)
  else if bool_decide (name = "monitor_actor") then
    mkFuncDef false (λ _ args kwargs,
      match bind_params [("f", None); ("e", None)] args kwargs with
      | Some [f; _] => PQueuePut dead_procs f (PReturn VNone)
      | _ => PRaise TypeError
      end)
  else mkFuncDef false (λ _ _ _, PRaise TypeError).

Definition actor1 : nat := 0.
Definition actor2 : nat := 1.

(** The test up to [kill(actor1)]. *)
Definition setup : State :=
  let st1 := (spawn repeater1 [] ∅ None empty_state).1 in
  let st2 := (spawn (repeater2 (VAddr actor1)) [] ∅ None st1).1 in
  let st3 := (spawn mon [] ∅ None st2).1 in
  let st4 := (monitor actor1 (VAddr 2) None st3).1 in
  let st5 := (spawn mon [] ∅ None st4).1 in
  (monitor actor2 (VAddr 3) None st5).1.

(** Every actor handles its first message, [actor1] is killed, the hub runs
    the notifications, the monitor actors handle theirs. *)
Definition schedule : list Action :=
  [AStep 0; AStep 1; AStep 2; AStep 3;
   ACall None actor1 [VStr KillerJoke] ∅;
   AHub; AHub; AHub; AHub;
   AStep 2; AStep 3].

Definition final : State := run code schedule setup.

End LinkTest.

Module TrapTest.

(** [test_trap_link_chain]: [boom] raises [Exception('boom')]; [trap] puts a
    [trap_exit] it is given on [caught_traps] and returns nothing, and
    without one spawns [boom] with [spawn_trap_link] and returns itself. *)
Definition boom : Value := VFunc "boom" [].
Definition trap : Value := VFunc "trap" [].
Definition caught_traps : nat := 0.

Definition code (name : string) : FuncDef :=
  if bool_decide (name = "boom") then
    mkFuncDef false (λ _ args kwargs,
      match bind_params [] args kwargs with
      | Some _ => PRaise (OtherError "boom")
      | None => PRaise TypeError
      end)
  else if bool_decide (name = "trap") then
    mkFuncDef false (λ _ args kwargs,
      match bind_params [("trap_exit", Some VNone)] args kwargs with
      | Some [t] =>
          if truthy t then PQueuePut caught_traps t (PReturn VNone)
          else PSpawn TrapLinked boom [] ∅ (λ _, PReturn trap)
      | _ => PRaise TypeError
      end)
  else mkFuncDef false (λ _ _ _, PRaise TypeError).

Definition setup : State := (spawn trap [] ∅ None empty_state).1.

(** [trap] handles its first message, [boom] runs and raises, the hub runs
    the trap, [trap] handles the message. *)
Definition schedule : list Action := [AStep 0; AStep 1; AHub; AStep 0].

Definition final : State := run code schedule setup.

End TrapTest.

(** ** The dispatch of the address, as the specification words it *)

Inductive Token : Type :=
| TMonitor
| TLink
| TTrapLink
| TActorInfo
| TKillerJoke.

Definition token_name (t : Token) : string :=
  match t with
  | TMonitor => Monitor
  | TLink => Link
  | TTrapLink => TrapLink
  | TActorInfo => ActorInfo
  | TKillerJoke => KillerJoke
  end.

(** "precedence order: Monitor, Link, TrapLink, ActorInfo, KillerJoke". *)
Definition precedence : list Token :=
  [TMonitor; TLink; TTrapLink; TActorInfo; TKillerJoke].

(** The one token that is handled: the first of the precedence order that
    occurs among the positional values, if any. *)
Definition recognized (args : list Value) : option Token :=
  List.find (λ t, in_args (token_name t) args) precedence.

(** What is done for the handled token, "else plain send". *)
Definition handle (t : option Token) (a : nat) (x : Actor) (me : option nat)
    (args : list Value) (kwargs : Kwargs) (st : State) : State * Result Value :=
  match t with
  | Some TMonitor => monitor_branch a x kwargs st
  | Some TLink => link_branch a me st
  | Some TTrapLink => trap_link_branch a me st
  | Some TActorInfo => actor_info_branch x st
  | Some TKillerJoke => killer_joke_branch a st
  | None => send_branch a args kwargs st
  end.

Definition is_token (v : Value) : bool :=
  existsb (λ t, is_str (token_name t) v) precedence.

(** ** Elementary mutations *)

(** Every transition of the runtime is a sequence of the following
    mutations of the state.  [names] says which names may be bound in the
    registry on the way. *)
Inductive mutation (names : string → Prop) : State → State → Prop :=
| m_put a x m st :
    actors st !! a = Some x →
    mutation names st (upd_actor a (with_mailbox (mailbox x ++ [m])) st)
| m_pop a x m rest st :
    actors st !! a = Some x → proc x = Running → mailbox x = m :: rest →
    mutation names st (upd_actor a (with_mailbox rest) st)
| m_link a x l st :
    actors st !! a = Some x → proc x = Running →
    (∀ mon f, l = LMonitor mon f → f = func x) →
    mutation names st (upd_actor a (with_links (links x ++ [l])) st)
| m_link_dead a x l e st :
    actors st !! a = Some x → proc x = Done e →
    (∀ mon f, l = LMonitor mon f → f = func x) →
    mutation names st (set_pending (λ p, p ++ [(l, a)]) st)
| m_die a x e st :
    actors st !! a = Some x → proc x = Running →
    mutation names st
      (set_pending (λ p, p ++ ((λ l, (l, a)) <$> links x))
         (upd_actor a (λ y, with_links [] (with_proc (Done e) y)) st))
| m_next a x v st :
    actors st !! a = Some x → proc x = Running →
    mutation names st (upd_actor a (with_next_func v) st)
| m_new f st :
    mutation names st (set_actors (λ l, l ++ [mkActor f f [] Running []]) st)
| m_queues g st :
    mutation names st (set_queues g st)
| m_timers g st :
    mutation names st (set_timers g st)
| m_log ev st :
    (∀ d mon f e, ev ≠ EvMonitor d mon f e) →
    mutation names st (add_log ev st)
| m_register name a x st :
    names name →
    actors st !! a = Some x →
    (proc x = Running ∧ (∃ f, LMonitor (VRemoveWhenDone name) f ∈ links x)) ∨
    (∃ f d, (LMonitor (VRemoveWhenDone name) f, d) ∈ pending st) →
    mutation names st (set_registry <[name := a]> st)
| m_hub_skip l d rest st :
    pending st = (l, d) :: rest → on_exception l = true →
    mutation names st (set_pending (λ _, rest) st)
| m_hub_monitor mon f d rest e st :
    pending st = (LMonitor mon f, d) :: rest →
    mutation names st
      ((match mon with
        | VRemoveWhenDone name => remove_when_done name
        | _ => λ s, s
        end) (add_log (EvMonitor d mon f e) (set_pending (λ _, rest) st))).

Definition mutations (names : string → Prop) : State → State → Prop :=
  rtc (mutation names).

(** ** Invariants *)

(** What stays of an actor: [func] for ever; once the greenlet is dead its
    status and [next_func], and the messages waiting then are never
    consumed; while it runs, its links. *)
Definition actor_keeps (x y : Actor) : Prop :=
  func y = func x ∧
  (∀ e, proc x = Done e →
     proc y = Done e ∧ next_func y = next_func x ∧ mailbox x `prefix_of` mailbox y) ∧
  (proc y = Running → proc x = Running ∧ ∀ l, l ∈ links x → l ∈ links y).

Definition extends (st st' : State) : Prop :=
  ∀ a x, actors st !! a = Some x → ∃ y, actors st' !! a = Some y ∧ actor_keeps x y.



(** A bound name has its [remove_when_done] on the way: as a link of the
    running actor it names, or as a notification the hub still has to run. *)
Definition registry_ok (st : State) : Prop :=
  ∀ name a, registry st !! name = Some a →
    (∃ x f, actors st !! a = Some x ∧ proc x = Running ∧
            LMonitor (VRemoveWhenDone name) f ∈ links x) ∨
    (∃ f d, (LMonitor (VRemoveWhenDone name) f, d) ∈ pending st).

(** No monitor, installed or waiting in the hub, would hand a control token
    to an address as [func]. *)
Definition quiet (st : State) : Prop :=
  (∀ a x mon f, actors st !! a = Some x → LMonitor mon f ∈ links x → is_token f = false) ∧
  (∀ mon f d, (LMonitor mon f, d) ∈ pending st → is_token f = false).

(** The notifications the hub may still have to run: those waiting and the
    links of the actors that can still die. *)
Definition live_links (x : Actor) : nat :=
  match proc x with
  | Running => length (links x)
  | Done _ => 0
  end.

Definition hub_work (st : State) : nat :=
  length (pending st) + sum_list (live_links <$> actors st).



Definition registers (name : string) (act : Action) : bool :=
  match act with
  | ARegister n _ => bool_decide (n = name)
  | _ => false
  end.


(** [y] is [x] with, at most, more messages waiting. *)
Definition same_but_mailbox (x y : Actor) : Prop :=
  func y = func x ∧ next_func y = next_func x ∧ proc y = proc x ∧
  links y = links x ∧ mailbox x `prefix_of` mailbox y.

(** Steps that kill nobody ([calm]) and schedule nothing ([gentle]): every
    actor is as it was but for messages added to mailboxes. *)
Definition calm (st st' : State) : Prop :=
  length (actors st') = length (actors st) ∧
  ∀ c x, actors st !! c = Some x →
         ∃ y, actors st' !! c = Some y ∧ same_but_mailbox x y.

Definition gentle (st st' : State) : Prop :=
  pending st' = pending st ∧ calm st st'.

(** The hub skips the notification [n]: a [link_exception] link of a
    greenlet that ended without exception. *)
Definition skipped (n : ProcLink * nat) (st : State) : bool :=
  on_exception n.1 && proc_successful (default Running (proc_status n.2 st)).

Definition is_kill (l : ProcLink) : bool :=
  match l with
  | LKill _ => true
  | _ => false
  end.

Definition link_quiet (l : ProcLink) : bool :=
  match l with
  | LMonitor _ f => negb (is_token f)
  | _ => true
  end.

(** [quiet], decided. *)
Definition quietb (st : State) : bool :=
  forallb (λ x, forallb link_quiet (links x)) (actors st) &&
  forallb (λ n, link_quiet n.1) (pending st).

(** The kill of [b] is on its way: [b] is dead by link already, or [b] runs
    and the hub holds a kill of [b] for a greenlet that died with an
    exception. *)
Definition doomed (b : nat) (st : State) : Prop :=
  proc_status b st = Some (Done (Some KilledByLink)) ∨
  (proc_status b st = Some Running ∧
   ∃ d ed, (LKill b, d) ∈ pending st ∧ proc_status d st = Some (Done (Some ed))).

(** ** Small systems used as examples *)

Module Examples.

Definition idle : Value := VFunc "idle" [].

(** One actor, spawned from outside with an empty first message. *)
Definition one_actor : State :=
  (spawn idle [] ∅ None empty_state).1.

(** Two actors. *)
Definition two_actors : State :=
  (spawn idle [] ∅ None one_actor).1.

(** An actor that is sent messages until its mailbox is full and is then
    killed, before it ever ran. *)
Definition dead_full : State :=
  (kill 0 None
     (foldr (λ _ st, (address 0 None [] ∅ st).1) one_actor
        (replicate (MAX_QUEUE_SIZE - 1) ()))).1.

(** An actor that is killed with one message waiting. *)
Definition dead_one : State :=
  (kill 0 None one_actor).1.




(** [spawn(ping, response)]: the first message lacks the counter [i]. *)
Definition short_ping : State :=
  (spawn StateMachine.ping [VQueue StateMachine.response] ∅ None empty_state).1.

End Examples.

(** ** Bounds *)

(** No mailbox holds more than [MAX_QUEUE_SIZE] messages. *)
Definition bounded (st : State) : Prop :=
  ∀ a x, actors st !! a = Some x → length (mailbox x) ≤ MAX_QUEUE_SIZE.

(** No message, waiting in a mailbox or for its timer, has been put back
    more than 8 times. *)
Definition retries_ok (st : State) : Prop :=
  (∀ a x m, actors st !! a = Some x → m ∈ mailbox x → retries m ≤ 8) ∧
  (∀ a m, (a, m) ∈ timers st → retries m ≤ 8).

(** Every actor of [st'] is an actor of [st] with the same mailbox, and the
    timers are the same. *)
Definition same_mail (st st' : State) : Prop :=
  timers st' = timers st ∧
  ∀ a y, actors st' !! a = Some y →
         ∃ x, actors st !! a = Some x ∧ mailbox y = mailbox x.

(** ** What only the owner's loop changes *)

(** [y] is [x] with the same functions and, at most, more messages at the
    back of the mailbox. *)
Definition actor_grows (x y : Actor) : Prop :=
  func y = func x ∧ next_func y = next_func x ∧ mailbox x `prefix_of` mailbox y.

Definition api_keeps (st st' : State) : Prop :=
  ∀ a x, actors st !! a = Some x → ∃ y, actors st' !! a = Some y ∧ actor_grows x y.

(** Actor [a] is still [x], but for messages added at the back. *)
Definition watch (a : nat) (x : Actor) (st : State) : Prop :=
  ∃ y, actors st !! a = Some y ∧ actor_grows x y.

(** ** Lazy references *)

(** [ref(name)( *args, **kwargs)]: the name is looked up when the reference
    is called; an unbound name is a [TypeError]. *)
Definition ref (name : string) (me : option nat) (args : list Value)
    (kwargs : Kwargs) (st : State) : State * Result Value :=
  match whereis name st with
  | Some addr => address addr me args kwargs st
  | None => (st, Raised TypeError)
  end.


(** ** Chains of links *)

(** The running actor [a] holds a kill of [b]: when [a] dies with an
    exception, the hub kills [b].  [link] and [spawn_link] give one to
    both sides, a trap link gives one to the caller. *)
Definition holds_kill (st : State) (a b : nat) : Prop :=
  ∃ x, actors st !! a = Some x ∧ proc x = Running ∧ LKill b ∈ links x.

(** [b] is reached from [a] along kills held by running actors. *)
Inductive reaches (st : State) (a : nat) : nat → Prop :=
| reaches_link b : holds_kill st a b → reaches st a b
| reaches_more c b : reaches st a c → holds_kill st c b → reaches st a b.

(** The kill of [c] is on its way, at once or behind the kills of other
    actors. *)
Inductive threatened (st : State) : nat → Prop :=
| threatened_now c d e :
    (LKill c, d) ∈ pending st → proc_status d st = Some (Done (Some e)) →
    threatened st c
| threatened_via b c :
    holds_kill st b c → threatened st b → threatened st c.

(** Actors 0, 1 and 2, linked in a row: 1 has linked to 0 and 2 to 1. *)
Definition linked_row : State :=
  (link 1 (Some 2) (link 0 (Some 1) (spawn Examples.idle [] ∅ None Examples.two_actors).1).1).1.

(** * Properties *)

(** ** State updates *)

Lemma lookup_upd_actor a f st b :
  actors (upd_actor a f st) !! b =
  if decide (a = b) then f <$> actors st !! a else actors st !! b.
Proof. unfold upd_actor; simpl. apply list_lookup_alter. Qed.

Lemma lookup_upd_actor_eq a f st x :
  actors st !! a = Some x → actors (upd_actor a f st) !! a = Some (f x).
Proof. intros H. rewrite lookup_upd_actor, decide_True, H; done. Qed.

Lemma lookup_upd_actor_ne a f st b :
  a ≠ b → actors (upd_actor a f st) !! b = actors st !! b.
Proof. intros H. by rewrite lookup_upd_actor, decide_False. Qed.

(** ** Every transition is a sequence of mutations *)

Section Mutations.

Variable names : string → Prop.

#[local] Instance mutations_preorder : PreOrder (mutations names).
Proof. unfold mutations. apply _. Qed.

Lemma mutations_once st st' : mutation names st st' → mutations names st st'.
Proof. apply rtc_once. Qed.

Lemma put_nowait_mut a m st : mutations names st (put_nowait a m st).1.
Proof.
  unfold put_nowait. destruct (actors st !! a) as [x|] eqn:Hx; [|done].
  case_bool_decide; [|done]. simpl. by eapply mutations_once, m_put.
Qed.

Lemma rawlink_mut a l st :
  (∀ x mon f, actors st !! a = Some x → l = LMonitor mon f → f = func x) →
  mutations names st (rawlink a l st).
Proof.
  intros Hl. unfold rawlink. destruct (actors st !! a) as [x|] eqn:Hx; [|done].
  destruct (proc x) eqn:Hp.
  - eapply mutations_once, m_link; eauto.
  - eapply mutations_once, m_link_dead; eauto.
Qed.

Lemma die_mut a e st : mutations names st (die a e st).
Proof.
  unfold die. destruct (actors st !! a) as [x|] eqn:Hx; [|done].
  destruct (proc x) eqn:Hp; [|done].
  by eapply mutations_once, m_die.
Qed.

Lemma except_Full_fst r : (except_Full r).1 = r.1.
Proof. destruct r as [st [v|e]]; simpl; [done|]. by case_bool_decide. Qed.

Lemma address_mut a me args kwargs st :
  mutations names st (address a me args kwargs st).1.
Proof.
  unfold address. destruct (actors st !! a) as [x|] eqn:Hx; [|done].
  rewrite except_Full_fst.
  repeat case_match; try done.
  - unfold monitor_branch. case_match; [|done]. simpl.
    apply rawlink_mut. intros y ?? Hy [= <- <-]. congruence.
  - unfold link_branch. case_match; [|done]. simpl.
    etransitivity; apply rawlink_mut; by intros.
  - unfold trap_link_branch. case_match; [|done]. simpl.
    etransitivity; apply rawlink_mut; by intros.
  - apply die_mut.
  - unfold send_branch.
    pose proof (put_nowait_mut a (mkMsg 0 args kwargs) st) as Hm.
    destruct (put_nowait _ _ _) as [st' []]; done.
Qed.

Lemma call_value_mut v me args kwargs st :
  mutations names st (call_value v me args kwargs st).1.
Proof. destruct v; try done. apply address_mut. Qed.

Lemma spawn_mut f args kwargs me st :
  mutations names st (spawn f args kwargs me st).1.
Proof.
  unfold spawn. etransitivity; [|apply address_mut].
  apply mutations_once, m_new.
Qed.

Lemma spawn_link_mut f args kwargs me st :
  mutations names st (spawn_link f args kwargs me st).1.
Proof.
  unfold spawn_link.
  pose proof (spawn_mut f [VStr Link] ∅ me st) as H1.
  destruct (spawn _ _ _ _ _) as [st1 [v|e]]; [|done].
  etransitivity; [exact H1|apply call_value_mut].
Qed.

Lemma spawn_trap_link_mut f args kwargs me st :
  mutations names st (spawn_trap_link f args kwargs me st).1.
Proof.
  unfold spawn_trap_link.
  pose proof (spawn_mut f [VStr TrapLink] ∅ me st) as H1.
  destruct (spawn _ _ _ _ _) as [st1 [v|e]]; [|done].
  etransitivity; [exact H1|apply call_value_mut].
Qed.

Lemma spawn_with_mut mode f args kwargs me st :
  mutations names st (spawn_with mode f args kwargs me st).1.
Proof.
  destruct mode; [apply spawn_mut|apply spawn_link_mut|apply spawn_trap_link_mut].
Qed.

Lemma exec_mut me p st : mutations names st (exec me p st).1.
Proof.
  revert st. induction p as [v|e|a args kwargs k IH|mode f args kwargs k IH|q v k IH];
    intros st; simpl; try done.
  - pose proof (address_mut a (Some me) args kwargs st) as H1.
    destruct (address _ _ _ _ _) as [st1 [w|e]]; [|done].
    case_match; [|done]. etransitivity; [exact H1|apply IH].
  - pose proof (spawn_with_mut mode f args kwargs (Some me) st) as H1.
    destruct (spawn_with _ _ _ _ _ _) as [st1 [w|e]]; [|done].
    case_match; [|done]. etransitivity; [exact H1|apply IH].
  - etransitivity; [|apply IH]. apply mutations_once, m_queues.
Qed.

Lemma in_hub_mut st r : mutations names st r.1 → mutations names st (in_hub r).
Proof.
  destruct r as [st' [v|e]]; simpl; [done|]. intros H.
  etransitivity; [exact H|]. by apply mutations_once, m_log.
Qed.

Lemma hub_step_mut st : mutations names st (hub_step st).
Proof.
  unfold hub_step. destruct (pending st) as [|[l d] rest] eqn:Hp; [done|].
  unfold notify. simpl.
  destruct (on_exception l && _) eqn:Hs.
  { apply andb_true_iff in Hs as [Hs _]. by eapply mutations_once, m_hub_skip. }
  destruct l as [mon f|t|me addr]; simpl.
  - unfold call_monitor.
    set (e := proc_exception _).
    pose proof (m_hub_monitor names mon f d rest e st Hp) as Hm.
    destruct mon; try (etransitivity; [by apply mutations_once|];
                       by apply mutations_once, m_log).
    + by apply mutations_once.
    + apply in_hub_mut. etransitivity; [by apply mutations_once|]. apply address_mut.
    + by apply mutations_once.
  - etransitivity; [by eapply mutations_once, m_hub_skip|]. apply die_mut.
  - apply in_hub_mut. etransitivity; [by eapply mutations_once, m_hub_skip|].
    apply address_mut.
Qed.

Lemma timer_step_mut st : mutations names st (timer_step st).
Proof.
  unfold timer_step. destruct (timers st) as [|[a m] rest]; [done|].
  pose proof (put_nowait_mut a m (set_timers (λ _, rest) st)) as H1.
  destruct (put_nowait _ _ _) as [st2 []]; simpl in *.
  - etransitivity; [|exact H1]. apply mutations_once, m_timers.
  - etransitivity; [apply mutations_once, m_timers|]. by apply mutations_once, m_log.
Qed.

Lemma is_running_set_queues a g st :
  is_running a (set_queues g st) = is_running a st.
Proof. done. Qed.

Lemma exec_return_running me p st v :
  is_running me st = true →
  (exec me p st).2 = OReturn v →
  is_running me (exec me p st).1 = true.
Proof.
  revert st. induction p as [w|e|a args kwargs k IH|mode f args kwargs k IH|q w k IH];
    intros st Hr; simpl; try done.
  - destruct (address _ _ _ _ _) as [st1 [u|e]]; [|done].
    destruct (is_running me st1) eqn:Hr1; [|done]. by apply IH.
  - destruct (spawn_with _ _ _ _ _ _) as [st1 [u|e]]; [|done].
    destruct (is_running me st1) eqn:Hr1; [|done]. by apply IH.
  - by apply IH.
Qed.

Lemma is_running_lookup a st :
  is_running a st = true ↔ ∃ x, actors st !! a = Some x ∧ proc x = Running.
Proof.
  unfold is_running, proc_status. rewrite bool_decide_eq_true.
  destruct (actors st !! a) as [x|]; simpl; split.
  - intros [= H]. eauto.
  - intros (y & [= <-] & H). by rewrite H.
  - done.
  - by intros (y & ? & _).
Qed.

Lemma actor_process_mut code a st : mutations names st (actor_process code a st).
Proof.
  unfold actor_process. destruct (actors st !! a) as [x|] eqn:Hx; [|done].
  destruct (proc x) eqn:Hp; [|done]. destruct (mailbox x) as [|m rest] eqn:Hm; [done|].
  set (args := if self_aware code (next_func x) then _ else _).
  set (st1 := upd_actor a (with_mailbox rest) st).
  assert (mutations names st st1) as H1 by by eapply mutations_once, m_pop.
  assert (is_running a st1 = true) as Hr1.
  { apply is_running_lookup. eexists. split; [by apply lookup_upd_actor_eq|done]. }
  pose proof (exec_mut a (invoke code (next_func x) args (msg_kwargs m)) st1) as H2.
  pose proof (exec_return_running a (invoke code (next_func x) args (msg_kwargs m)) st1)
    as H3.
  destruct (exec _ _ _) as [st2 [v|e|]]; simpl in H2, H3.
  - specialize (H3 v Hr1 eq_refl). apply is_running_lookup in H3 as (y & Hy & Hpy).
    assert (mutations names st (upd_actor a (with_next_func v) st2)) as H4.
    { etransitivity; [exact H1|]. etransitivity; [exact H2|].
      by eapply mutations_once, m_next. }
    case_match; [done|]. etransitivity; [exact H4|apply die_mut].
  - assert (mutations names st st2) as H4 by by etransitivity.
    repeat case_match.
    + etransitivity; [exact H4|]. apply mutations_once, m_timers.
    + etransitivity; [exact H4|]. by apply mutations_once, m_log.
    + etransitivity; [exact H4|]. apply die_mut.
  - by etransitivity.
Qed.

Lemma register_mut name a me st :
  names name → mutations names st (register name a me st).1.
Proof.
  intros Hn. unfold register. case_bool_decide as Hb; [done|].
  unfold monitor, address.
  destruct (actors st !! a) as [x|] eqn:Hx; [|done].
  simpl. unfold monitor_branch. rewrite lookup_singleton_eq. simpl.
  etransitivity.
  { apply (rawlink_mut a (LMonitor (VRemoveWhenDone name) (func x))).
    intros y ?? Hy [= <- <-]. congruence. }
  unfold rawlink. rewrite Hx. destruct (proc x) eqn:Hp.
  - eapply mutations_once, m_register; [done|by apply lookup_upd_actor_eq|].
    left. split; [done|]. exists (func x). simpl. set_solver.
  - eapply mutations_once, m_register; [done|exact Hx|].
    right. exists (func x), a. simpl. set_solver.
Qed.

Lemma do_action_mut code act st :
  (∀ n, registers n act = true → names n) →
  mutations names st (do_action code act st).
Proof.
  intros Hn. destruct act as [a| | |me a args kwargs|mode f args kwargs|name a]; simpl.
  - apply actor_process_mut.
  - apply hub_step_mut.
  - apply timer_step_mut.
  - apply address_mut.
  - apply spawn_with_mut.
  - apply register_mut. apply Hn. simpl. by apply bool_decide_eq_true.
Qed.

Lemma run_mut code acts st :
  (∀ n act, act ∈ acts → registers n act = true → names n) →
  mutations names st (run code acts st).
Proof.
  revert st. induction acts as [|act acts IH]; intros st Hn; simpl; [done|].
  etransitivity.
  - apply do_action_mut. intros n. apply Hn. apply list_elem_of_here.
  - apply IH. intros n act' ?. apply Hn. by apply list_elem_of_further.
Qed.

End Mutations.

(** ** What mutations keep *)

Lemma actor_keeps_refl x : actor_keeps x x.
Proof. repeat split; auto. Qed.

Lemma actor_keeps_trans x y z : actor_keeps x y → actor_keeps y z → actor_keeps x z.
Proof.
  intros (Hf1 & Hd1 & Hr1) (Hf2 & Hd2 & Hr2). split; [congruence|]. split.
  - intros e He. destruct (Hd1 e He) as (Hp & Hn & Hm).
    destruct (Hd2 e Hp) as (Hp' & Hn' & Hm'). split; [done|]. split; [congruence|].
    by etransitivity.
  - intros Hz. destruct (Hr2 Hz) as [Hy Hl2]. destruct (Hr1 Hy) as [Hx Hl1]. auto.
Qed.

#[global] Instance extends_preorder : PreOrder extends.
Proof.
  split.
  - intros st a x Hx. exists x. split; [done|apply actor_keeps_refl].
  - intros st1 st2 st3 H1 H2 a x Hx.
    destruct (H1 a x Hx) as (y & Hy & Hxy). destruct (H2 a y Hy) as (z & Hz & Hyz).
    exists z. split; [done|]. by eapply actor_keeps_trans.
Qed.

Lemma extends_same_actors st st' : actors st' = actors st → extends st st'.
Proof. intros H a x Hx. exists x. rewrite H. split; [done|apply actor_keeps_refl]. Qed.

Lemma extends_upd_actor a f st :
  (∀ x, actors st !! a = Some x → actor_keeps x (f x)) → extends st (upd_actor a f st).
Proof.
  intros Hf b y Hy. rewrite lookup_upd_actor. case_decide as Hab.
  - subst b. rewrite Hy. simpl. eauto.
  - exists y. split; [done|apply actor_keeps_refl].
Qed.

Lemma mutation_extends names st st' : mutation names st st' → extends st st'.
Proof.
  destruct 1 as [a x m st Hx|a x m rest st Hx Hp Hm|a x l st Hx Hp Hl
                |a x l e st Hx Hp Hl|a x e st Hx Hp|a x v st Hx Hp|f st|g st|g st
                |ev st Hev|name a x st Hn Hx Hl|l d rest st Hp Hl|mon f d rest e st Hp];
    try (by apply extends_same_actors).
  - apply extends_upd_actor. intros y Hy. assert (y = x) as -> by congruence.
    split; [done|]. split; [|done]. intros e' He'. simpl.
    split; [done|]. split; [done|]. by apply prefix_app_r.
  - apply extends_upd_actor. intros y Hy. assert (y = x) as -> by congruence.
    split; [done|]. split; [|done]. intros e' He'. congruence.
  - apply extends_upd_actor. intros y Hy. assert (y = x) as -> by congruence.
    split; [done|]. split; [done|]. simpl. intros _. split; [done|].
    intros l' Hl'. apply elem_of_app. by left.
  - etransitivity; [|by apply extends_same_actors].
    apply extends_upd_actor. intros y Hy. assert (y = x) as -> by congruence.
    split; [done|]. split; [|done]. intros e' He'. congruence.
  - apply extends_upd_actor. intros y Hy. assert (y = x) as -> by congruence.
    split; [done|]. split; [|done]. intros e' He'. congruence.
  - intros a x Hx. exists x. split; [|apply actor_keeps_refl]. simpl.
    rewrite lookup_app_l; [done|]. by eapply lookup_lt_Some.
  - destruct mon; by apply extends_same_actors.
Qed.

Lemma mutations_extends names st st' : mutations names st st' → extends st st'.
Proof.
  induction 1 as [|st1 st2 st3 H12 _ IH]; [done|].
  etransitivity; [by eapply mutation_extends|done].
Qed.


Lemma registry_hub_monitor (mon : Value) (st : State) :
  ∀ n b,
    registry ((match mon with
               | VRemoveWhenDone name => remove_when_done name
               | _ => λ s, s
               end) st) !! n = Some b →
    registry st !! n = Some b ∧ mon ≠ VRemoveWhenDone n.
Proof.
  intros n b. destruct mon; simpl; try (intros H; split; [done|congruence]).
  rewrite lookup_delete. case_decide as Hd; [done|]. intros H. split; [done|congruence].
Qed.

Lemma other_fields_hub_monitor (mon : Value) (st : State) :
  let st' := (match mon with
              | VRemoveWhenDone name => remove_when_done name
              | _ => λ s, s
              end) st in
  actors st' = actors st ∧ pending st' = pending st ∧ log st' = log st.
Proof. by destruct mon. Qed.



(** ** The registry *)

Lemma mutation_registry_ok names st st' :
  mutation names st st' → registry_ok st → registry_ok st'.
Proof.
  intros Hm Hok.
  destruct Hm as [a x m st Hx|a x m rest st Hx Hp Hm|a x l st Hx Hp Hl
                |a x l e st Hx Hp Hl|a x e st Hx Hp|a x v st Hx Hp|f st|g st|g st
                |ev st Hev|name a x st Hn Hx Hl|l d rest st Hp Hl|mon f d rest e st Hp].
  1-3, 6: (intros n b Hb; destruct (Hok n b Hb) as [(y & f & Hy & Hr & Hin)|H];
     [|by right]; left; destruct (decide (a = b)) as [->|Hab];
     [assert (y = x) as -> by congruence;
      eexists _, f; split; [by apply lookup_upd_actor_eq|]; simpl; split; [done|]
     |exists y, f; by rewrite lookup_upd_actor_ne]).
  - done.
  - done.
  - apply elem_of_app. by left.
  - done.
  - intros n b Hb. destruct (Hok n b Hb) as [H|(f & d & Hin)]; [by left|].
    right. exists f, d. simpl. apply elem_of_app. by left.
  - intros n b Hb. destruct (Hok n b Hb) as [(y & f & Hy & Hr & Hin)|(f & d & Hin)].
    + destruct (decide (a = b)) as [->|Hab].
      * assert (y = x) as -> by congruence. right. exists f, b. simpl.
        apply elem_of_app. right. apply list_elem_of_fmap. by exists (LMonitor (VRemoveWhenDone n) f).
      * left. exists y, f. simpl. by rewrite list_lookup_alter_ne.
    + right. exists f, d. simpl. apply elem_of_app. by left.
  - intros n b Hb. destruct (Hok n b Hb) as [(y & f' & Hy & Hr & Hin)|H]; [|by right].
    left. exists y, f'. simpl. rewrite lookup_app_l; [done|]. by eapply lookup_lt_Some.
  - done.
  - done.
  - done.
  - intros n b. simpl. rewrite lookup_insert. case_decide as Hn'.
    + subst n. intros [= <-]. destruct Hl as [[Hr (f & Hin)]|H]; [|by right].
      left. by exists x, f.
    + intros Hb. by apply Hok.
  - intros n b Hb. destruct (Hok n b Hb) as [H|(f & d' & Hin)]; [by left|].
    right. exists f, d'. simpl. rewrite Hp in Hin.
    apply elem_of_cons in Hin as [[= <- <-]|Hin]; [done|done].
  - intros n b Hb. apply registry_hub_monitor in Hb as [Hb Hne].
    destruct (other_fields_hub_monitor mon
                (add_log (EvMonitor d mon f e) (set_pending (λ _, rest) st)))
      as (Ha & Hpd & Hlg).
    rewrite Ha, Hpd. simpl in *.
    destruct (Hok n b Hb) as [H|(f' & d' & Hin)]; [by left|].
    right. exists f', d'. rewrite Hp in Hin.
    apply elem_of_cons in Hin as [[= <- <- <-]|Hin]; [done|done].
Qed.

Lemma mutations_registry_ok names st st' :
  mutations names st st' → registry_ok st → registry_ok st'.
Proof. induction 1; eauto using mutation_registry_ok. Qed.

(** A name that is not registered on the way keeps its binding or loses
    it. *)
Lemma mutation_binding name st st' :
  mutation (λ n, n ≠ name) st st' →
  registry st' !! name = None ∨ registry st' !! name = registry st !! name.
Proof.
  destruct 1 as [a x m st Hx|a x m rest st Hx Hp Hm|a x l st Hx Hp Hl
                |a x l e st Hx Hp Hl|a x e st Hx Hp|a x v st Hx Hp|f st|g st|g st
                |ev st Hev|n a x st Hn Hx Hl|l d rest st Hp Hl|mon f d rest e st Hp];
    try (by right).
  - right. simpl. by rewrite lookup_insert_ne.
  - destruct mon; try (by right). simpl. rewrite lookup_delete.
    case_decide; [by left|by right].
Qed.

Lemma mutations_binding name st st' :
  mutations (λ n, n ≠ name) st st' →
  registry st' !! name = None ∨ registry st' !! name = registry st !! name.
Proof.
  induction 1 as [|st1 st2 st3 H12 _ IH]; [by right|].
  destruct IH as [IH|IH]; [by left|].
  destruct (mutation_binding _ _ _ H12) as [H|H]; [|right; congruence].
  rewrite IH, H. by left.
Qed.


Lemma empty_state_registry_ok : registry_ok empty_state.
Proof. intros n a. simpl. by rewrite lookup_empty. Qed.

(** ** The address *)

Lemma recognized_None args :
  recognized args = None ↔
  in_args Monitor args = false ∧ in_args Link args = false ∧
  in_args TrapLink args = false ∧ in_args ActorInfo args = false ∧
  in_args KillerJoke args = false.
Proof.
  unfold recognized, precedence. simpl.
  destruct (in_args Monitor args), (in_args Link args), (in_args TrapLink args),
    (in_args ActorInfo args), (in_args KillerJoke args); intuition congruence.
Qed.

Lemma address_handle a x me args kwargs st :
  actors st !! a = Some x →
  address a me args kwargs st =
  except_Full (handle (recognized args) a x me args kwargs st).
Proof.
  intros Hx. unfold address. rewrite Hx. f_equal.
  unfold recognized, precedence. simpl.
  destruct (in_args Monitor args), (in_args Link args), (in_args TrapLink args),
    (in_args ActorInfo args), (in_args KillerJoke args); reflexivity.
Qed.

Lemma send_branch_spec a x args kwargs st :
  actors st !! a = Some x →
  send_branch a args kwargs st =
  if bool_decide (length (mailbox x) < MAX_QUEUE_SIZE)
  then (upd_actor a (with_mailbox (mailbox x ++ [mkMsg 0 args kwargs])) st,
        Returned (VAddr a))
  else (st, Raised Full).
Proof.
  intros Hx. unfold send_branch, put_nowait. rewrite Hx. by case_bool_decide.
Qed.

(** C4: a call with no control token among its positional values appends
    [(0, args, kwargs)] to the mailbox when fewer than [MAX_QUEUE_SIZE]
    messages are waiting, and otherwise raises [UndeliveredMessage] and
    leaves the whole state, the target actor included, as it was. *)
Theorem plain_send_appends_or_raises (st : State) (a : nat) (x : Actor)
    (me : option nat) (args : list Value) (kwargs : Kwargs) :
  actors st !! a = Some x →
  recognized args = None →
  MAX_QUEUE_SIZE = 1024 ∧
  (length (mailbox x) < MAX_QUEUE_SIZE →
   address a me args kwargs st =
   (upd_actor a (with_mailbox (mailbox x ++ [mkMsg 0 args kwargs])) st,
    Returned (VAddr a))) ∧
  (MAX_QUEUE_SIZE ≤ length (mailbox x) →
   address a me args kwargs st = (st, Raised UndeliveredMessage)).
Proof.
  intros Hx Hr. split; [done|].
  rewrite (address_handle a x) by done. rewrite Hr. simpl.
  rewrite (send_branch_spec a x) by done. split; intros Hlen.
  - by rewrite bool_decide_eq_true_2.
  - rewrite bool_decide_eq_false_2 by lia. done.
Qed.

Lemma plain_send_witness :
  address 0 None [VInt 7] ∅ Examples.one_actor =
  (upd_actor 0 (with_mailbox [mkMsg 0 [] ∅; mkMsg 0 [VInt 7] ∅]) Examples.one_actor,
   Returned (VAddr 0)).
Proof.
  refine (proj1 (proj2 (plain_send_appends_or_raises Examples.one_actor 0
            (mkActor Examples.idle Examples.idle [mkMsg 0 [] ∅] Running [])
            None [VInt 7] ∅ _ _)) _).
  - reflexivity.
  - reflexivity.
  - vm_compute. lia.
Defined.



(** ** Runs *)

Lemma run_extends code acts st : extends st (run code acts st).
Proof. eapply (mutations_extends (λ _, True)), run_mut. done. Qed.


Lemma run_registry_ok code acts st : registry_ok st → registry_ok (run code acts st).
Proof. eapply (mutations_registry_ok (λ _, True)), run_mut. done. Qed.

Lemma die_running a x e st :
  actors st !! a = Some x → proc x = Running →
  die a e st =
  set_pending (λ p, p ++ ((λ l, (l, a)) <$> links x))
    (upd_actor a (λ y, with_links [] (with_proc (Done e) y)) st).
Proof. intros Hx Hp. unfold die. by rewrite Hx, Hp. Qed.

Lemma die_dead a x e e' st :
  actors st !! a = Some x → proc x = Done e' → die a e st = st.
Proof. intros Hx Hp. unfold die. by rewrite Hx, Hp. Qed.






(** ** Monitors *)



(** In the state machine scenario the monitor is called with [ping] although
    the behaviour that returned was [pong]. *)
Example monitor_of_state_machine :
  log StateMachine.final = [EvMonitor 0 (VAddr 1) StateMachine.ping None] ∧
  next_func <$> actors (run StateMachine.code (replicate 5 (AStep 0)) StateMachine.setup) !! 0
    = Some StateMachine.pong.
Proof. split; vm_compute; reflexivity. Qed.

(** ** register and whereis *)

Lemma register_unbound name addr x me st :
  actors st !! addr = Some x →
  registry st !! name = None →
  register name addr me st =
  (set_registry <[name := addr]>
     (rawlink addr (LMonitor (VRemoveWhenDone name) (func x)) st),
   Returned VNone).
Proof.
  intros Hx Hn. unfold register. rewrite Hn.
  rewrite bool_decide_eq_false_2 by (by intros [? ?]).
  unfold monitor. rewrite (address_handle addr x) by done. simpl.
  unfold monitor_branch. by rewrite lookup_singleton_eq.
Qed.

(** C7: [register] on a bound name raises [KeyError] and changes nothing;
    on a free name it binds the name to the address (other names keep their
    bindings), and, as long as nobody registers the name again, once the
    actor is dead and the hub has run its notifications [whereis] answers
    [None] for the name. *)
Theorem register_binds_until_death (code : string → FuncDef) (st : State)
    (name : string) (addr : nat) (x : Actor) (me : option nat) :
  registry_ok st →
  actors st !! addr = Some x →
  (is_Some (registry st !! name) →
   register name addr me st = (st, Raised KeyError)) ∧
  (registry st !! name = None →
   (register name addr me st).2 = Returned VNone ∧
   whereis name (register name addr me st).1 = Some addr ∧
   (∀ n, n ≠ name → whereis n (register name addr me st).1 = whereis n st) ∧
   ∀ acts,
     (∀ act, act ∈ acts → registers name act = false) →
     is_running addr (run code acts (register name addr me st).1) = false →
     pending (run code acts (register name addr me st).1) = [] →
     whereis name (run code acts (register name addr me st).1) = None).
Proof.
  intros Hok Hx. split.
  - intros Hb. unfold register. by rewrite bool_decide_eq_true_2.
  - intros Hn.
    assert (registry_ok (register name addr me st).1) as Hok1.
    { eapply (mutations_registry_ok (λ _, True)); [|exact Hok]. by apply register_mut. }
    revert Hok1. rewrite (register_unbound name addr x) by done. simpl. intros Hok1.
    split; [done|]. unfold whereis. simpl.
    split; [by rewrite lookup_insert_eq|].
    split.
    { intros n Hne. rewrite lookup_insert_ne by done.
      unfold rawlink. rewrite Hx. by destruct (proc x). }
    intros acts Hacts Hdead Hq.
    set (st1 := set_registry _ _) in *.
    assert (mutations (λ n, n ≠ name) st1 (run code acts st1)) as Hm.
    { apply run_mut. intros n act Hin Hr ->. rewrite (Hacts act Hin) in Hr. done. }
    destruct (mutations_binding name _ _ Hm) as [H|H]; [done|].
    assert (registry st1 !! name = Some addr) as H1 by (simpl; by rewrite lookup_insert_eq).
    rewrite H1 in H. exfalso.
    destruct (mutations_registry_ok _ _ _ Hm Hok1 name addr H)
      as [(y & f & Hy & Hr & _)|(f & d & Hin)].
    + assert (is_running addr (run code acts st1) = true) as Hrun
        by (apply is_running_lookup; eauto).
      congruence.
    + rewrite Hq in Hin. by apply elem_of_nil in Hin.
Qed.

Lemma one_actor_registry_ok : registry_ok Examples.one_actor.
Proof. intros n a. vm_compute. discriminate. Qed.

Lemma register_binds_until_death_witness :
  whereis "brewer"
    (run StateMachine.code [ACall None 0 [VStr KillerJoke] ∅; AHub]
       (register "brewer" 0 None Examples.one_actor).1) = None ∧
  whereis "brewer" (register "brewer" 0 None Examples.one_actor).1 = Some 0.
Proof.
  destruct (register_binds_until_death StateMachine.code Examples.one_actor "brewer" 0
              (mkActor Examples.idle Examples.idle [mkMsg 0 [] ∅] Running []) None
              one_actor_registry_ok eq_refl) as [_ H].
  destruct (H eq_refl) as (_ & Hb & _ & Hrun).
  split; [|exact Hb].
  apply Hrun.
  - intros act Hin. repeat (apply elem_of_cons in Hin as [->|Hin]; [reflexivity|]).
    by apply elem_of_nil in Hin.
  - vm_compute. reflexivity.
  - vm_compute. reflexivity.
Defined.

(** ** The loop of the actor *)

(** What one round does with a message the behaviour rejects by a
    [TypeError] before calling anything. *)
Lemma actor_process_mismatch code a x m rest st :
  actors st !! a = Some x →
  proc x = Running →
  mailbox x = m :: rest →
  invoke code (next_func x)
    (if self_aware code (next_func x) then VAddr a :: msg_args m else msg_args m)
    (msg_kwargs m) = PRaise TypeError →
  actor_process code a st =
  let args := if self_aware code (next_func x) then VAddr a :: msg_args m
              else msg_args m in
  let st1 := upd_actor a (with_mailbox rest) st in
  if bool_decide (retries m < 8)
  then set_timers (λ t, t ++ [(a, mkMsg (retries m + 1) args (msg_kwargs m))]) st1
  else add_log (EvDropped a (next_func x) (mkMsg (retries m) args (msg_kwargs m))) st1.
Proof.
  intros Hx Hp Hm Hi. unfold actor_process. rewrite Hx, Hp, Hm, Hi. reflexivity.
Qed.


(** The ninth failure drops the message: nothing is put back, the drop is
    logged, the actor runs on with the same behaviour. *)
Example retry_then_drop :
  let st := run StateMachine.code (concat (replicate 9 [AStep 0; ATimer]))
              Examples.short_ping in
  timers st = [] ∧
  (mailbox <$> actors st !! 0) = Some [] ∧
  (proc <$> actors st !! 0) = Some Running ∧
  (next_func <$> actors st !! 0) = Some StateMachine.ping ∧
  ∃ m, log st = [EvDropped 0 StateMachine.ping m] ∧ retries m = 8.
Proof. vm_compute. repeat split; try reflexivity. eexists. split; reflexivity. Qed.

(** ** Sending to a dead actor *)

(** C6, at a dead actor: a message sent to it is put in its mailbox, which
    [actor_info] shows, and once [MAX_QUEUE_SIZE] messages wait the send
    raises [UndeliveredMessage]. *)
Theorem send_to_dead_actor :
  proc_status 0 Examples.dead_one = Some (Done (Some Killed)) ∧
  info_mailbox_size <$> (actor_info_of <$> actors Examples.dead_one !! 0) = Some 1 ∧
  info_mailbox_size <$>
    (actor_info_of <$> actors (address 0 None [VInt 7] ∅ Examples.dead_one).1 !! 0)
    = Some 2 ∧
  proc_status 0 Examples.dead_full = Some (Done (Some Killed)) ∧
  address 0 None [VInt 7] ∅ Examples.dead_full
    = (Examples.dead_full, Raised UndeliveredMessage).
Proof. repeat split; vm_compute; reflexivity. Qed.

(** What does hold: a dead actor stays dead, with its exception and its
    behaviour, whatever is sent or done afterwards. *)
Lemma dead_stays_dead code acts a x e st :
  actors st !! a = Some x → proc x = Done e →
  ∃ y, actors (run code acts st) !! a = Some y ∧ proc y = Done e ∧
       next_func y = next_func x ∧ func y = func x.
Proof.
  intros Hx Hp. destruct (run_extends code acts st a x Hx) as (y & Hy & Hf & Hd & _).
  destruct (Hd e Hp) as (? & ? & _). eauto.
Qed.

(** ** The state machine scenario *)

(** C9 as stated fails: the queue does not hold exactly the five strings
    up to "ping 1". *)
Lemma state_machine_not_five :
  queues StateMachine.final !! StateMachine.response ≠
  Some [VStr "ping 5"; VStr "pong 4"; VStr "ping 3"; VStr "pong 2"; VStr "ping 1"].
Proof. vm_compute. discriminate. Qed.

(** ** The hub *)

Lemma sum_list_alter {A} (g : A → nat) (f : A → A) (l : list A) (a : nat) (x : A) :
  l !! a = Some x →
  sum_list (g <$> alter f a l) + g x = sum_list (g <$> l) + g (f x).
Proof.
  revert a. induction l as [|z l IH]; intros [|a] Hx; simpl in *; try done.
  - injection Hx as ->. clear IH. lia.
  - specialize (IH a Hx). unfold fmap, alter in *. lia.
Qed.

Lemma hub_work_upd_actor a f x st :
  actors st !! a = Some x → live_links (f x) = live_links x →
  hub_work (upd_actor a f st) = hub_work st.
Proof.
  intros Hx Hl. unfold hub_work. simpl.
  pose proof (sum_list_alter live_links f (actors st) a x Hx). lia.
Qed.

Lemma hub_work_die a e st : hub_work (die a e st) = hub_work st.
Proof.
  unfold die. destruct (actors st !! a) as [x|] eqn:Hx; [|done].
  destruct (proc x) eqn:Hp; [|done]. unfold hub_work. simpl.
  pose proof (sum_list_alter live_links
                (λ y, with_links [] (with_proc (Done e) y)) (actors st) a x Hx) as H.
  assert (live_links x = length (links x)) as H1
    by (unfold live_links; by rewrite Hp).
  assert (live_links (with_links [] (with_proc (Done e) x)) = 0) as H2 by done.
  rewrite H1, H2 in H.
  rewrite length_app, length_fmap. unfold fmap, alter in *. lia.
Qed.

Lemma hub_work_put_nowait a m st : hub_work (put_nowait a m st).1 = hub_work st.
Proof.
  unfold put_nowait. destruct (actors st !! a) as [x|] eqn:Hx; [|done].
  case_bool_decide; [|done]. simpl. by apply (hub_work_upd_actor a _ x).
Qed.

Lemma hub_work_send_branch a args kwargs st :
  hub_work (send_branch a args kwargs st).1 = hub_work st.
Proof.
  unfold send_branch. pose proof (hub_work_put_nowait a (mkMsg 0 args kwargs) st) as H.
  by destruct (put_nowait _ _ _) as [st' []].
Qed.

(** A call from the hub, without [monitor=], leaves no new link. *)
Lemma hub_work_address a args kwargs st :
  kwargs !! "monitor" = None →
  hub_work (address a None args kwargs st).1 = hub_work st.
Proof.
  intros Hk. unfold address. destruct (actors st !! a) as [x|] eqn:Hx; [|done].
  rewrite except_Full_fst. repeat case_match; try done.
  - unfold monitor_branch. by rewrite Hk.
  - apply hub_work_die.
  - apply hub_work_send_branch.
Qed.

Lemma hub_work_in_hub r : hub_work (in_hub r) = hub_work r.1.
Proof. by destruct r as [st [v|e]]. Qed.

Lemma hub_work_notify n st : hub_work (notify n st) = hub_work st.
Proof.
  unfold notify. case_match; [done|]. destruct n as [[mon f|t|me addr] d]; simpl.
  - unfold call_monitor. destruct mon; try done.
    rewrite hub_work_in_hub, hub_work_address; done.
  - apply hub_work_die.
  - rewrite hub_work_in_hub, hub_work_address; [done|].
    by apply lookup_singleton_ne.
Qed.

Lemma hub_work_hub_step st :
  pending st ≠ [] → S (hub_work (hub_step st)) = hub_work st.
Proof.
  unfold hub_step. destruct (pending st) as [|n rest] eqn:Hp; [done|]. intros _.
  rewrite hub_work_notify. unfold hub_work. simpl. by rewrite Hp.
Qed.

(** With enough fuel the hub runs every notification. *)
Lemma drain_quiescent fuel st : hub_work st ≤ fuel → pending (drain fuel st) = [].
Proof.
  revert st. induction fuel as [|fuel IH]; intros st Hw; simpl.
  - unfold hub_work in Hw. destruct (pending st); [done|simpl in Hw; lia].
  - destruct (pending st) as [|n rest] eqn:Hp; [done|].
    apply IH. pose proof (hub_work_hub_step st) as H. rewrite Hp in H.
    specialize (H ltac:(done)). lia.
Qed.

Lemma drain_invariant (P : State → Prop) fuel st :
  (∀ s, P s → pending s ≠ [] → P (hub_step s)) → P st → P (drain fuel st).
Proof.
  intros Hstep. revert st. induction fuel as [|fuel IH]; intros st HP; simpl; [done|].
  destruct (pending st) as [|n rest] eqn:Hp; [done|].
  apply IH, Hstep; [done|]. by rewrite Hp.
Qed.

(** ** Notifications that kill and notifications that do not *)

Lemma same_but_mailbox_refl x : same_but_mailbox x x.
Proof. by repeat split. Qed.

Lemma same_but_mailbox_trans x y z :
  same_but_mailbox x y → same_but_mailbox y z → same_but_mailbox x z.
Proof.
  intros (?&?&?&?&?) (?&?&?&?&?). repeat split; try congruence. by etransitivity.
Qed.

#[global] Instance calm_preorder : PreOrder calm.
Proof.
  split.
  - intros st. split; [done|]. intros c x Hx. exists x.
    split; [done|apply same_but_mailbox_refl].
  - intros st1 st2 st3 [Hl1 H1] [Hl2 H2]. split; [congruence|]. intros c x Hx.
    destruct (H1 c x Hx) as (y & Hy & Hxy). destruct (H2 c y Hy) as (z & Hz & Hyz).
    exists z. split; [done|]. by eapply same_but_mailbox_trans.
Qed.

#[global] Instance gentle_preorder : PreOrder gentle.
Proof.
  split.
  - intros st. by split.
  - intros st1 st2 st3 [Hp1 H1] [Hp2 H2]. split; [congruence|by etransitivity].
Qed.

Lemma calm_same_actors st st' : actors st' = actors st → calm st st'.
Proof.
  intros H. split; [by rewrite H|]. intros c x Hx. exists x. rewrite H.
  split; [done|apply same_but_mailbox_refl].
Qed.

Lemma calm_put_nowait a m st : calm st (put_nowait a m st).1.
Proof.
  unfold put_nowait. destruct (actors st !! a) as [x|] eqn:Hx; [|done].
  case_bool_decide; [|done]. simpl. split.
  { simpl. by rewrite length_alter. }
  intros c y Hy. rewrite lookup_upd_actor. case_decide as Hac.
  - subst c. rewrite Hx. simpl. eexists. split; [done|].
    assert (y = x) as -> by congruence. repeat split. simpl. by apply prefix_app_r.
  - exists y. split; [done|apply same_but_mailbox_refl].
Qed.

Lemma pending_put_nowait a m st : pending (put_nowait a m st).1 = pending st.
Proof.
  unfold put_nowait. destruct (actors st !! a) as [x|]; [|done]. by case_bool_decide.
Qed.

(** A call without control token only puts the message, if it can. *)
Lemma address_send_fst a me args kwargs st :
  recognized args = None →
  (address a me args kwargs st).1 = (put_nowait a (mkMsg 0 args kwargs) st).1.
Proof.
  intros Hr. destruct (actors st !! a) as [x|] eqn:Hx.
  - rewrite (address_handle a x), Hr by done. rewrite except_Full_fst. simpl.
    unfold send_branch. by destruct (put_nowait _ _ _) as [st' []] eqn:Hput;
      [|unfold put_nowait in Hput; rewrite Hx in Hput; case_bool_decide;
        injection Hput as <-].
  - unfold address, put_nowait. by rewrite Hx.
Qed.

Lemma gentle_in_hub_send a args kwargs st :
  recognized args = None → gentle st (in_hub (address a None args kwargs st)).
Proof.
  intros Hr. pose proof (address_send_fst a None args kwargs st Hr) as H.
  pose proof (calm_put_nowait a (mkMsg 0 args kwargs) st) as Hc.
  pose proof (pending_put_nowait a (mkMsg 0 args kwargs) st) as Hp.
  rewrite <- H in Hc, Hp. destruct (address _ _ _ _ _) as [st' [v|e]]; simpl in *.
  - by split.
  - split; [done|]. etransitivity; [exact Hc|]. by apply calm_same_actors.
Qed.

Lemma recognized_monitor_args f e :
  is_token f = false → recognized [f; exn_value e] = None.
Proof.
  intros Hf. apply recognized_None. unfold is_token, precedence in Hf. simpl in Hf.
  unfold in_args. simpl.
  repeat (apply orb_false_elim in Hf as [? Hf]).
  assert (∀ t, is_str t (exn_value e) = false) as He by (by destruct e).
  rewrite !He, !orb_false_r. auto.
Qed.

Lemma notify_gentle n st :
  (∀ mon f, n.1 = LMonitor mon f → is_token f = false) →
  skipped n st = true ∨ is_kill n.1 = false →
  gentle st (notify n st).
Proof.
  intros Hq Hn. unfold notify. fold (skipped n st).
  destruct (skipped n st) eqn:Hs; [done|]. destruct Hn as [?|Hk]; [done|].
  destruct n as [[mon f|t|me addr] d]; simpl in *; [| done |].
  - unfold call_monitor.
    assert (gentle st (add_log (EvMonitor d mon f
              (proc_exception (default Running (proc_status d st)))) st)) as Hg.
    { split; [done|]. by apply calm_same_actors. }
    destruct mon; try (etransitivity; [exact Hg|]; split; [done|];
                       by apply calm_same_actors); try exact Hg.
    etransitivity; [exact Hg|]. apply gentle_in_hub_send.
    apply recognized_monitor_args. eauto.
  - by apply gentle_in_hub_send.
Qed.

Lemma notify_kill t d st :
  skipped (LKill t, d) st = false →
  notify (LKill t, d) st = proc_kill t KilledByLink st.
Proof. intros Hs. unfold notify. fold (skipped (LKill t, d) st). by rewrite Hs. Qed.

Lemma proc_status_die c a e st :
  proc_status c (die a e st) =
  if bool_decide (c = a ∧ proc_status a st = Some Running)
  then Some (Done e) else proc_status c st.
Proof.
  unfold die, proc_status. destruct (actors st !! a) as [x|] eqn:Hx.
  - destruct (proc x) eqn:Hp.
    + simpl. rewrite list_lookup_alter. case_decide as Hac.
      * subst c. rewrite Hx. simpl. rewrite Hp.
        by rewrite bool_decide_eq_true_2.
      * rewrite bool_decide_eq_false_2; [done|]. intros [? _]. congruence.
    + rewrite bool_decide_eq_false_2; [done|]. simpl. rewrite Hp. intros [_ ?]. congruence.
  - rewrite bool_decide_eq_false_2; [done|]. simpl. intros [_ ?]. congruence.
Qed.

Lemma pending_die a e st :
  ∃ more, pending (die a e st) = pending st ++ more ∧
          ∀ n, n ∈ more → ∃ x, actors st !! a = Some x ∧ n.1 ∈ links x.
Proof.
  unfold die. destruct (actors st !! a) as [x|] eqn:Hx.
  - destruct (proc x) eqn:Hp.
    + eexists. split; [done|]. intros n (l & -> & Hl)%list_elem_of_fmap. eauto.
    + exists []. split; [by rewrite app_nil_r|]. by intros n ?%elem_of_nil.
  - exists []. split; [by rewrite app_nil_r|]. by intros n ?%elem_of_nil.
Qed.

Lemma links_die c a e st y :
  actors (die a e st) !! c = Some y →
  ∃ x, actors st !! c = Some x ∧ ∀ l, l ∈ links y → l ∈ links x.
Proof.
  unfold die. destruct (actors st !! a) as [x|] eqn:Hx; [|by eauto].
  destruct (proc x) eqn:Hp; [|by eauto].
  simpl. rewrite list_lookup_alter. case_decide as Hac.
  - subst c. rewrite Hx. simpl. intros [= <-]. exists x. split; [done|].
    simpl. by intros l ?%elem_of_nil.
  - eauto.
Qed.

Lemma quiet_die a e st : quiet st → quiet (die a e st).
Proof.
  intros [HA HB]. split.
  - intros c y mon f Hy Hin. destruct (links_die c a e st y Hy) as (x & Hx & Hl).
    eapply HA; eauto.
  - intros mon f d. destruct (pending_die a e st) as (more & -> & Hmore).
    rewrite elem_of_app. intros [H|H]; [by eapply HB|].
    destruct (Hmore _ H) as (x & Hx & Hl). eapply HA; eauto.
Qed.

Lemma quiet_pop n rest st :
  pending st = n :: rest → quiet st → quiet (set_pending (λ _, rest) st).
Proof.
  intros Hp [HA HB]. split; [exact HA|]. simpl. intros mon f d Hin.
  eapply HB. rewrite Hp. by apply list_elem_of_further.
Qed.

Lemma quiet_gentle st st' : gentle st st' → quiet st → quiet st'.
Proof.
  intros [Hp [Hlen Hc]] [HA HB]. split.
  - intros c y mon f Hy Hin.
    assert (is_Some (actors st !! c)) as [x Hx].
    { apply lookup_lt_is_Some. rewrite <- Hlen. by eapply lookup_lt_Some. }
    destruct (Hc c x Hx) as (y' & Hy' & _ & _ & _ & Hl & _).
    assert (y' = y) as -> by congruence. rewrite Hl in Hin. eauto.
  - rewrite Hp. exact HB.
Qed.

Lemma proc_status_calm st st' c : calm st st' → proc_status c st' = proc_status c st.
Proof.
  intros [Hlen Hc]. unfold proc_status. destruct (actors st !! c) as [x|] eqn:Hx.
  - destruct (Hc c x Hx) as (y & -> & _ & _ & Hp & _). simpl. by rewrite Hp.
  - apply lookup_ge_None in Hx. rewrite <- Hlen in Hx.
    apply lookup_ge_None in Hx. by rewrite Hx.
Qed.

Lemma skipped_pop n rest st :
  skipped n (set_pending (λ _, rest) st) = skipped n st.
Proof. done. Qed.

(** What one step of the hub does in a quiet system: the head of the
    waiting notifications either kills its target by link, or only adds
    messages, records and registry removals. *)
Lemma hub_step_cases n rest st :
  pending st = n :: rest → quiet st →
  (∃ t, n.1 = LKill t ∧ skipped n st = false ∧
        hub_step st = die t (Some KilledByLink) (set_pending (λ _, rest) st)) ∨
  ((skipped n st = true ∨ is_kill n.1 = false) ∧
   pending (hub_step st) = rest ∧ calm st (hub_step st)).
Proof.
  intros Hp Hq. unfold hub_step. rewrite Hp.
  destruct (skipped n st) eqn:Hs; [|destruct (is_kill n.1) eqn:Hk].
  - right. split; [by left|].
    destruct (notify_gentle n (set_pending (λ _, rest) st)) as [Hp' Hc].
    + intros mon f Hn. destruct Hq as [_ HB]. eapply (HB mon f n.2).
      rewrite Hp. destruct n as [l d]. simpl in Hn. subst l. apply list_elem_of_here.
    + left. by rewrite skipped_pop.
    + split; [done|]. etransitivity; [|exact Hc]. by apply calm_same_actors.
  - left. destruct n as [[| t |] d]; try done. exists t. split; [done|]. split; [done|].
    by rewrite notify_kill.
  - right. split; [by right|].
    destruct (notify_gentle n (set_pending (λ _, rest) st)) as [Hp' Hc].
    + intros mon f Hn. destruct Hq as [_ HB]. eapply (HB mon f n.2).
      rewrite Hp. destruct n as [l d]. simpl in Hn. subst l. apply list_elem_of_here.
    + by right.
    + split; [done|]. etransitivity; [|exact Hc]. by apply calm_same_actors.
Qed.

Lemma hub_step_quiet st : quiet st → quiet (hub_step st).
Proof.
  intros Hq. destruct (pending st) as [|n rest] eqn:Hp.
  { unfold hub_step. by rewrite Hp. }
  destruct (hub_step_cases n rest st Hp Hq) as [(t & _ & _ & ->)|(_ & Hp' & Hc)].
  - apply quiet_die. by eapply quiet_pop.
  - destruct Hq as [HA HB]. destruct Hc as [Hlen Hc]. split.
    + intros c y mon f Hy Hin.
      assert (is_Some (actors st !! c)) as [x Hx].
      { apply lookup_lt_is_Some. rewrite <- Hlen. by eapply lookup_lt_Some. }
      destruct (Hc c x Hx) as (y' & Hy' & _ & _ & _ & Hl & _).
      assert (y' = y) as -> by congruence. rewrite Hl in Hin. eauto.
    + rewrite Hp'. intros mon f d Hin. eapply HB. rewrite Hp.
      by apply list_elem_of_further.
Qed.

(** ** Links *)

Lemma proc_status_Some a st s :
  proc_status a st = Some s ↔ ∃ x, actors st !! a = Some x ∧ proc x = s.
Proof.
  unfold proc_status. destruct (actors st !! a) as [x|]; simpl; split.
  - intros [= <-]. eauto.
  - by intros (y & [= <-] & <-).
  - done.
  - by intros (y & ? & _).
Qed.



Lemma rawlink_running a l x st :
  actors st !! a = Some x → proc x = Running →
  rawlink a l st = upd_actor a (with_links (links x ++ [l])) st.
Proof. intros Hx Hp. unfold rawlink. by rewrite Hx, Hp. Qed.




Lemma address_link_spec a x b st :
  actors st !! a = Some x →
  address a (Some b) [VStr Link] ∅ st =
  (rawlink a (LKill b) (rawlink b (LKill a) st), Returned (VAddr a)).
Proof. intros Hx. by rewrite (address_handle a x). Qed.

Lemma link_spec a x b st :
  actors st !! a = Some x →
  link a (Some b) st =
  (rawlink a (LKill b) (rawlink b (LKill a) st), Returned (VAddr a)).
Proof. apply address_link_spec. Qed.

Lemma trap_link_spec t x s st :
  actors st !! t = Some x →
  address t (Some s) [VStr TrapLink] ∅ st =
  (rawlink t (LTrap s t) (rawlink s (LKill t) st), Returned (VAddr t)).
Proof. intros Hx. by rewrite (address_handle t x). Qed.

Lemma new_actor_lookup f st :
  actors (set_actors (λ l, l ++ [mkActor f f [] Running []]) st) !! length (actors st)
  = Some (mkActor f f [] Running []).
Proof. simpl. rewrite lookup_app_r by done. by rewrite Nat.sub_diag. Qed.





(** ** Abnormal and normal termination *)

Lemma hub_step_doomed b st :
  quiet st → doomed b st → pending st ≠ [] → doomed b (hub_step st).
Proof.
  intros Hq Hd Hne. destruct (pending st) as [|n rest] eqn:Hp; [done|].
  destruct (hub_step_cases n rest st Hp Hq)
    as [(t & Hn & Hs & ->)|(Hn & Hp' & Hc)].
  - destruct Hd as [Hd|(Hr & d & ed & Hin & Hdd)].
    + left. rewrite proc_status_die. rewrite bool_decide_eq_false_2; [done|].
      intros [-> H]. change (proc_status t st = Some Running) in H. congruence.
    + destruct (decide (t = b)) as [->|Htb].
      * left. rewrite proc_status_die. by rewrite bool_decide_eq_true_2.
      * right. split.
        { rewrite proc_status_die. rewrite bool_decide_eq_false_2; [done|].
          intros [? _]. congruence. }
        exists d, ed. split.
        { destruct (pending_die t (Some KilledByLink) (set_pending (λ _, rest) st))
            as (more & -> & _). simpl. apply elem_of_app. left.
          rewrite Hp in Hin. apply elem_of_cons in Hin as [Hin|Hin]; [|done].
          subst n. simpl in Hn. congruence. }
        rewrite proc_status_die. rewrite bool_decide_eq_false_2; [done|].
        intros [-> H]. change (proc_status t st = Some Running) in H. congruence.
  - destruct Hd as [Hd|(Hr & d & ed & Hin & Hdd)].
    + left. by rewrite (proc_status_calm st (hub_step st)).
    + right. rewrite !(proc_status_calm st (hub_step st)) by done. split; [done|].
      exists d, ed. split; [|by rewrite (proc_status_calm st (hub_step st))].
      rewrite Hp'. rewrite Hp in Hin.
      apply elem_of_cons in Hin as [Hin|Hin]; [|done].
      subst n. unfold skipped in Hn. simpl in Hn. rewrite Hdd in Hn. simpl in Hn.
      by destruct Hn.
Qed.

(** Once the hub has run everything, a doomed actor is dead by link. *)
Lemma doomed_dies fuel b st :
  quiet st → doomed b st → hub_work st ≤ fuel →
  proc_status b (drain fuel st) = Some (Done (Some KilledByLink)).
Proof.
  intros Hq Hd Hw.
  assert (quiet (drain fuel st) ∧ doomed b (drain fuel st)) as [_ [H|H]].
  { apply (drain_invariant (λ s, quiet s ∧ doomed b s)); [|done].
    intros s [Hqs Hds] Hne. split; [by apply hub_step_quiet|by apply hub_step_doomed]. }
  - done.
  - destruct H as (_ & d & ed & Hin & _).
    rewrite (drain_quiescent fuel st Hw) in Hin. by apply elem_of_nil in Hin.
Qed.


(** While every waiting notification is skipped or is no kill, the hub
    kills nobody. *)
Lemma calm_drain fuel st :
  quiet st →
  (∀ n, n ∈ pending st → skipped n st = true ∨ is_kill n.1 = false) →
  calm st (drain fuel st).
Proof.
  revert st. induction fuel as [|fuel IH]; intros st Hq Hall; simpl; [done|].
  destruct (pending st) as [|n rest] eqn:Hp; [done|].
  destruct (hub_step_cases n rest st Hp Hq)
    as [(t & Hn & Hs & _)|(_ & Hp' & Hc)].
  - destruct (Hall n) as [H|H]; [apply list_elem_of_here|congruence|].
    rewrite Hn in H. done.
  - etransitivity; [exact Hc|]. apply IH; [by apply hub_step_quiet|].
    intros n' Hin. rewrite Hp' in Hin.
    destruct (Hall n' (list_elem_of_further _ _ _ Hin)) as [H|H]; [left|by right].
    unfold skipped in *. by rewrite (proc_status_calm st (hub_step st)).
Qed.

Lemma lookup_die_ne c a e st : c ≠ a → actors (die a e st) !! c = actors st !! c.
Proof.
  intros Hca. unfold die. destruct (actors st !! a) as [x|]; [|done].
  destruct (proc x); [|done]. simpl. by rewrite list_lookup_alter_ne.
Qed.



Lemma quietb_sound st : quietb st = true → quiet st.
Proof.
  unfold quietb. intros [HA HB]%andb_true_iff.
  rewrite forallb_forall in HA. rewrite forallb_forall in HB. split.
  - intros a x mon f Hx Hin.
    apply list_elem_of_lookup_2, list_elem_of_In, HA in Hx.
    rewrite forallb_forall in Hx. apply list_elem_of_In, Hx in Hin.
    simpl in Hin. by apply negb_true_iff.
  - intros mon f d Hin. apply list_elem_of_In, HB in Hin. simpl in Hin.
    by apply negb_true_iff.
Qed.


(** ** Trap links *)





(** ** The link scenarios of the tests *)

(** [test_link_two_actors]: both functions reach [dead_procs], [actor1] is
    dead with [Killed] and [actor2] with [KilledByLink]. *)
Example link_two_actors :
  queues LinkTest.final !! LinkTest.dead_procs =
    Some [LinkTest.repeater1; LinkTest.repeater2 (VAddr 0)] ∧
  info_exception <$> (actor_info_of <$> actors LinkTest.final !! LinkTest.actor1)
    = Some (Some Killed) ∧
  info_exception <$> (actor_info_of <$> actors LinkTest.final !! LinkTest.actor2)
    = Some (Some KilledByLink) ∧
  pending LinkTest.final = [].
Proof. repeat split; vm_compute; reflexivity. Qed.

(** [test_trap_link_chain]: the trap is caught with the address of the dead
    actor and its exception, and the trapping actor ended without one. *)
Example trap_link_chain :
  queues TrapTest.final !! TrapTest.caught_traps =
    Some [VTuple [VAddr 1; VExn (OtherError "boom")]] ∧
  proc_status 1 TrapTest.final = Some (Done (Some (OtherError "boom"))) ∧
  info_exception <$> (actor_info_of <$> actors TrapTest.final !! 0) = Some None ∧
  proc_status 0 (run TrapTest.code [AStep 0; AStep 1; AHub] TrapTest.setup)
    = Some Running.
Proof. repeat split; vm_compute; reflexivity. Qed.

(** ** Monitors are called *)










Lemma hub_step_dead st d e :
  proc_status d st = Some (Done e) → proc_status d (hub_step st) = Some (Done e).
Proof.
  intros (x & Hx & Hp)%proc_status_Some.
  destruct (mutations_extends (λ _, True) _ _ (hub_step_mut _ st) d x Hx)
    as (y & Hy & _ & Hd & _).
  destruct (Hd e Hp) as (Hpy & _). apply proc_status_Some. eauto.
Qed.



Lemma hub_work_rawlink_running a l x st :
  actors st !! a = Some x → proc x = Running →
  hub_work (rawlink a l st) = S (hub_work st).
Proof.
  intros Hx Hp. rewrite (rawlink_running a l x) by done. unfold hub_work. simpl.
  pose proof (sum_list_alter live_links (with_links (links x ++ [l])) (actors st) a x Hx)
    as H.
  assert (live_links x = length (links x)) as H1
    by (unfold live_links; by rewrite Hp).
  assert (live_links (with_links (links x ++ [l]) x) = S (length (links x))) as H2.
  { unfold live_links. simpl. rewrite Hp, length_app. simpl. lia. }
  rewrite H1, H2 in H. unfold fmap, alter in *. lia.
Qed.



(** ** The state machine scenario under every schedule *)

Lemma advance_at_progress act p :
  StateMachine.progress_ok p →
  StateMachine.scheduler_action act = true →
  do_action StateMachine.code act (StateMachine.at_progress p) =
    StateMachine.at_progress (StateMachine.advance act p) ∧
  StateMachine.progress_ok (StateMachine.advance act p).
Proof.
  destruct p as [[k fired] ms]. unfold StateMachine.progress_ok. simpl.
  intros (Hk & Hms & Hf & Hm) Hact.
  assert (ms = 0 ∨ ms = 1 ∨ ms = 2) as Hms' by lia.
  assert (k = 0 ∨ k = 1 ∨ k = 2 ∨ k = 3 ∨ k = 4 ∨ k = 5 ∨ k = 6) as Hk' by lia.
  destruct act as [[|[|a]]| | | | |]; try discriminate Hact;
    destruct fired;
    repeat (match goal with
            | H : _ ∨ _ |- _ => destruct H as [H|H]
            end);
    subst; try (specialize (Hf eq_refl)); try (specialize (Hm eq_refl));
    try discriminate; try lia;
    (split; [|vm_compute; repeat split; try lia; try discriminate; try reflexivity]);
    try (vm_compute; reflexivity);
    (simpl; unfold actor_process; rewrite lookup_ge_None_2 by (vm_compute; lia);
     reflexivity).
Qed.

Lemma run_at_progress acts p :
  StateMachine.progress_ok p →
  forallb StateMachine.scheduler_action acts = true →
  ∃ p', StateMachine.progress_ok p' ∧
        run StateMachine.code acts (StateMachine.at_progress p)
        = StateMachine.at_progress p'.
Proof.
  revert p. induction acts as [|act acts IH]; intros p Hp Hacts; simpl.
  - by exists p.
  - simpl in Hacts. apply andb_true_iff in Hacts as [Hact Hacts].
    destruct (advance_at_progress act p Hp Hact) as [-> Hp'].
    by apply IH.
Qed.

Lemma at_progress_facts p :
  StateMachine.progress_ok p →
  let st := StateMachine.at_progress p in
  default [] (queues st !! StateMachine.response) `prefix_of` StateMachine.expected ∧
  (proc_status StateMachine.state_machine st = Some Running ∨
   (proc_status StateMachine.state_machine st = Some (Done None) ∧
    queues st !! StateMachine.response = Some StateMachine.expected)) ∧
  default [] (queues st !! StateMachine.monitor_response)
    `prefix_of` [VTuple [StateMachine.ping; VNone]].
Proof.
  destruct p as [[k fired] ms]. unfold StateMachine.progress_ok. simpl.
  intros (Hk & Hms & Hf & Hm).
  assert (ms = 0 ∨ ms = 1 ∨ ms = 2) as Hms' by lia.
  assert (k = 0 ∨ k = 1 ∨ k = 2 ∨ k = 3 ∨ k = 4 ∨ k = 5 ∨ k = 6) as Hk' by lia.
  destruct fired;
    repeat (match goal with
            | H : _ ∨ _ |- _ => destruct H as [H|H]
            end);
    subst; try (specialize (Hf eq_refl)); try (specialize (Hm eq_refl));
    try discriminate; try lia;
    (split; [vm_compute; eexists; reflexivity|]);
    (split; [|vm_compute; eexists; reflexivity]);
    vm_compute; first [left; reflexivity | right; split; reflexivity].
Qed.

(** C9, amended: under every schedule what the shared queue has received is
    a prefix of "ping 5", "pong 4", "ping 3", "pong 2", "ping 1", "pong 0";
    the actor runs, or has returned (no exception) with all six on the
    queue; the monitor's queue gets nothing but [(ping, None)].  Under the
    schedule of the test the six strings are received, the actor terminates
    normally and the monitor observes [(ping, None)]. *)
Theorem state_machine_scenario (acts : list Action) :
  forallb StateMachine.scheduler_action acts = true →
  (default [] (queues (run StateMachine.code acts StateMachine.setup)
                 !! StateMachine.response)
     `prefix_of` StateMachine.expected ∧
   (proc_status StateMachine.state_machine
      (run StateMachine.code acts StateMachine.setup) = Some Running ∨
    (proc_status StateMachine.state_machine
       (run StateMachine.code acts StateMachine.setup) = Some (Done None) ∧
     queues (run StateMachine.code acts StateMachine.setup) !! StateMachine.response
     = Some StateMachine.expected)) ∧
   default [] (queues (run StateMachine.code acts StateMachine.setup)
                 !! StateMachine.monitor_response)
     `prefix_of` [VTuple [StateMachine.ping; VNone]]) ∧
  queues StateMachine.final !! StateMachine.response =
    Some [VStr "ping 5"; VStr "pong 4"; VStr "ping 3"; VStr "pong 2"; VStr "ping 1";
          VStr "pong 0"] ∧
  proc_status StateMachine.state_machine StateMachine.final = Some (Done None) ∧
  queues StateMachine.final !! StateMachine.monitor_response =
    Some [VTuple [StateMachine.ping; VNone]] ∧
  proc_status StateMachine.mon StateMachine.final = Some (Done None).
Proof.
  intros Hacts. split; [|repeat split; vm_compute; reflexivity].
  destruct (run_at_progress acts (0, false, 0)) as (p & Hp & Heq); [|done|].
  { unfold StateMachine.progress_ok. simpl. repeat split; try lia; discriminate. }
  change (StateMachine.at_progress (0, false, 0)) with StateMachine.setup in Heq.
  rewrite Heq. by apply at_progress_facts.
Qed.

Lemma state_machine_scenario_witness :
  proc_status StateMachine.state_machine
    (run StateMachine.code StateMachine.schedule StateMachine.setup)
    = Some (Done None) ∧
  queues (run StateMachine.code StateMachine.schedule StateMachine.setup)
    !! StateMachine.response = Some StateMachine.expected.
Proof.
  destruct (state_machine_scenario StateMachine.schedule) as [(_ & H & _) _].
  - reflexivity.
  - destruct H as [H|H]; [|exact H]. vm_compute in H. discriminate H.
Defined.

(** * Further properties of the runtime *)

(** ** A property kept by the primitives is kept by every operation *)

Section Preservation.

Variable code : string → FuncDef.

(** The property, and the actors whose own loop keeps it. *)
Variable I : State → Prop.
Variable owner_ok : nat → Prop.

Hypothesis I_put : ∀ a args kwargs st,
  I st → I (put_nowait a (mkMsg 0 args kwargs) st).1.
Hypothesis I_rawlink : ∀ a l st, I st → I (rawlink a l st).
Hypothesis I_die : ∀ a e st, I st → I (die a e st).
Hypothesis I_new : ∀ f st,
  I st → I (set_actors (λ l, l ++ [mkActor f f [] Running []]) st).
Hypothesis I_queues : ∀ g st, I st → I (set_queues g st).
Hypothesis I_registry : ∀ g st, I st → I (set_registry g st).
Hypothesis I_log : ∀ ev st, I st → I (add_log ev st).
Hypothesis I_pending_pop : ∀ n rest st,
  I st → pending st = n :: rest → I (set_pending (λ _, rest) st).
Hypothesis I_timer : ∀ st, I st → I (timer_step st).
Hypothesis I_mail_pop : ∀ a x m rest st,
  owner_ok a → I st → actors st !! a = Some x → proc x = Running →
  mailbox x = m :: rest → I (upd_actor a (with_mailbox rest) st).
Hypothesis I_next : ∀ a v st,
  owner_ok a → I st → I (upd_actor a (with_next_func v) st).
Hypothesis I_retry : ∀ a m st,
  I st → retries m ≤ 8 → I (set_timers (λ t, t ++ [(a, m)]) st).

Lemma address_keeps a me args kwargs st :
  I st → I (address a me args kwargs st).1.
Proof using I_put I_rawlink I_die.
  intros HI. destruct (actors st !! a) as [x|] eqn:Hx;
    [|unfold address; by rewrite Hx].
  rewrite (address_handle a x) by done. rewrite except_Full_fst.
  destruct (recognized args) as [[]|]; simpl.
  - unfold monitor_branch. destruct (kwargs !! "monitor"); [|done]. by apply I_rawlink.
  - unfold link_branch. destruct me as [m|]; [|done]. simpl. by do 2 apply I_rawlink.
  - unfold trap_link_branch. destruct me as [m|]; [|done]. simpl.
    by do 2 apply I_rawlink.
  - done.
  - by apply I_die.
  - unfold send_branch. pose proof (I_put a args kwargs st HI) as Hp.
    by destruct (put_nowait _ _ _) as [st' []].
Qed.

Lemma call_value_keeps v me args kwargs st :
  I st → I (call_value v me args kwargs st).1.
Proof using I_put I_rawlink I_die.
  destruct v; try done. apply address_keeps.
Qed.

Lemma spawn_keeps f args kwargs me st :
  I st → I (spawn f args kwargs me st).1.
Proof using I_put I_rawlink I_die I_new.
  intros HI. unfold spawn. by apply address_keeps, I_new.
Qed.

Lemma spawn_with_keeps mode f args kwargs me st :
  I st → I (spawn_with mode f args kwargs me st).1.
Proof using I_put I_rawlink I_die I_new.
  intros HI. destruct mode; simpl.
  - by apply spawn_keeps.
  - unfold spawn_link. pose proof (spawn_keeps f [VStr Link] ∅ me st HI) as H1.
    destruct (spawn _ _ _ _ _) as [st1 [v|e]]; [|done]. by apply call_value_keeps.
  - unfold spawn_trap_link.
    pose proof (spawn_keeps f [VStr TrapLink] ∅ me st HI) as H1.
    destruct (spawn _ _ _ _ _) as [st1 [v|e]]; [|done]. by apply call_value_keeps.
Qed.

Lemma exec_keeps me p st : I st → I (exec me p st).1.
Proof using I_put I_rawlink I_die I_new I_queues.
  revert st. induction p as [v|e|a args kwargs k IH|mode f args kwargs k IH|q v k IH];
    intros st HI; simpl; try done.
  - pose proof (address_keeps a (Some me) args kwargs st HI) as H1.
    destruct (address _ _ _ _ _) as [st1 [w|e]]; [|done].
    destruct (is_running me st1); [|done]. by apply IH.
  - pose proof (spawn_with_keeps mode f args kwargs (Some me) st HI) as H1.
    destruct (spawn_with _ _ _ _ _ _) as [st1 [w|e]]; [|done].
    destruct (is_running me st1); [|done]. by apply IH.
  - by apply IH, I_queues.
Qed.

Lemma register_keeps name a me st : I st → I (register name a me st).1.
Proof using I_put I_rawlink I_die I_registry.
  intros HI. unfold register. case_bool_decide; [done|].
  pose proof (address_keeps a me [VStr Monitor] {["monitor" := VRemoveWhenDone name]}
                st HI) as H1.
  unfold monitor. destruct (address _ _ _ _ _) as [st1 [v|e]]; [|done].
  by apply I_registry.
Qed.

Lemma in_hub_keeps r : I r.1 → I (in_hub r).
Proof using I_log. destruct r as [st [v|e]]; simpl; [done|]. apply I_log. Qed.

Lemma notify_keeps n st : I st → I (notify n st).
Proof using I_put I_rawlink I_die I_registry I_log.
  intros HI. unfold notify. destruct (on_exception n.1 && _); [done|].
  destruct n as [[mon f|t|me addr] d]; simpl.
  - unfold call_monitor.
    assert (I (add_log (EvMonitor d mon f
                 (proc_exception (default Running (proc_status d st)))) st)) as H1
      by by apply I_log.
    destruct mon; try (by apply I_log); try done.
    + by apply in_hub_keeps, address_keeps.
    + by apply I_registry.
  - by apply I_die.
  - by apply in_hub_keeps, address_keeps.
Qed.

Lemma hub_step_keeps st : I st → I (hub_step st).
Proof using I_put I_rawlink I_die I_registry I_log I_pending_pop.
  intros HI. unfold hub_step. destruct (pending st) as [|n rest] eqn:Hp; [done|].
  by eapply notify_keeps, I_pending_pop.
Qed.

Lemma drain_keeps fuel st : I st → I (drain fuel st).
Proof using I_put I_rawlink I_die I_registry I_log I_pending_pop.
  intros HI. apply drain_invariant; [|done]. intros s Hs _. by apply hub_step_keeps.
Qed.

Lemma actor_process_keeps a st : owner_ok a → I st → I (actor_process code a st).
Proof using I_put I_rawlink I_die I_new I_queues I_log I_mail_pop I_next I_retry.
  intros Ha HI. unfold actor_process.
  destruct (actors st !! a) as [x|] eqn:Hx; [|done].
  destruct (proc x) eqn:Hp; [|done]. destruct (mailbox x) as [|m rest] eqn:Hm; [done|].
  set (args := if self_aware code (next_func x) then _ else _).
  pose proof (exec_keeps a (invoke code (next_func x) args (msg_kwargs m))
                (upd_actor a (with_mailbox rest) st)
                (I_mail_pop a x m rest st Ha HI Hx Hp Hm)) as H2.
  destruct (exec _ _ _) as [st2 [v|e|]]; simpl in H2.
  - destruct (truthy v); [by apply I_next|by apply I_die, I_next].
  - destruct (is_TypeError e); [|by apply I_die].
    case_bool_decide as Hr; [|by apply I_log].
    apply I_retry; [done|]. simpl. lia.
  - done.
Qed.

Lemma do_action_keeps act st :
  (∀ a, act = AStep a → owner_ok a) → I st → I (do_action code act st).
Proof using All.
  intros Ha HI. destruct act as [a| | |me a args kwargs|mode f args kwargs|name a]; simpl.
  - apply actor_process_keeps; auto.
  - by apply hub_step_keeps.
  - by apply I_timer.
  - by apply address_keeps.
  - by apply spawn_with_keeps.
  - by apply register_keeps.
Qed.

Lemma run_keeps acts st :
  (∀ a, AStep a ∈ acts → owner_ok a) → I st → I (run code acts st).
Proof using All.
  revert st. induction acts as [|act acts IH]; intros st Ha HI; simpl; [done|].
  apply IH.
  - intros a Hin. apply Ha. by apply list_elem_of_further.
  - apply do_action_keeps; [|done]. intros a ->. apply Ha. apply list_elem_of_here.
Qed.

End Preservation.

(** ** Bounded mailboxes and bounded retries *)

Lemma same_mail_same_actors st st' :
  actors st' = actors st → timers st' = timers st → same_mail st st'.
Proof. intros Ha Ht. split; [done|]. intros a y Hy. exists y. by rewrite <- Ha. Qed.

Lemma same_mail_upd_actor a f st :
  (∀ x, mailbox (f x) = mailbox x) → same_mail st (upd_actor a f st).
Proof.
  intros Hf. split; [done|]. intros c y. rewrite lookup_upd_actor.
  case_decide as Hac; [|by eauto]. subst c.
  destruct (actors st !! a) as [x|]; simpl; [|done]. intros [= <-]. eauto.
Qed.

Lemma same_mail_rawlink a l st : same_mail st (rawlink a l st).
Proof.
  unfold rawlink. destruct (actors st !! a) as [x|]; [|by apply same_mail_same_actors].
  destruct (proc x); [by apply same_mail_upd_actor|by apply same_mail_same_actors].
Qed.

Lemma same_mail_die a e st : same_mail st (die a e st).
Proof.
  unfold die. destruct (actors st !! a) as [x|]; [|by apply same_mail_same_actors].
  destruct (proc x); [|by apply same_mail_same_actors].
  destruct (same_mail_upd_actor a (λ y, with_links [] (with_proc (Done e) y)) st)
    as [Ht Ha]; [done|]. by split.
Qed.

Lemma bounded_same_mail st st' : same_mail st st' → bounded st → bounded st'.
Proof.
  intros [_ Hs] Hb a y Hy. destruct (Hs a y Hy) as (x & Hx & ->). by eapply Hb.
Qed.

Lemma retries_ok_same_mail st st' : same_mail st st' → retries_ok st → retries_ok st'.
Proof.
  intros [Ht Hs] [HA HB]. split.
  - intros a y m Hy Hm. destruct (Hs a y Hy) as (x & Hx & Heq). rewrite Heq in Hm. eauto.
  - rewrite Ht. exact HB.
Qed.

(** What [put_nowait] leaves in a mailbox: what was there, or that and the
    new message at the back when there was room. *)
Lemma put_nowait_lookup a m st c y :
  actors (put_nowait a m st).1 !! c = Some y →
  ∃ x, actors st !! c = Some x ∧
       (y = x ∨ (c = a ∧ length (mailbox x) < MAX_QUEUE_SIZE ∧
                 y = with_mailbox (mailbox x ++ [m]) x)).
Proof.
  unfold put_nowait. destruct (actors st !! a) as [x|] eqn:Hx; [|by eauto].
  case_bool_decide as Hlen; [|by eauto]. simpl. rewrite list_lookup_alter.
  case_decide as Hac; [|by eauto]. subst c. rewrite Hx. simpl. intros [= <-].
  exists x. split; [done|]. right. done.
Qed.

Lemma timers_put_nowait a m st : timers (put_nowait a m st).1 = timers st.
Proof.
  unfold put_nowait. destruct (actors st !! a) as [x|]; [|done]. by case_bool_decide.
Qed.

Lemma bounded_put_nowait a m st : bounded st → bounded (put_nowait a m st).1.
Proof.
  intros Hb c y Hy. destruct (put_nowait_lookup a m st c y Hy) as (x & Hx & [->|H]).
  - by eapply Hb.
  - destruct H as (_ & Hlen & ->). simpl. rewrite length_app. simpl. lia.
Qed.

Lemma retries_ok_put_nowait a m st :
  retries m ≤ 8 → retries_ok st → retries_ok (put_nowait a m st).1.
Proof.
  intros Hm [HA HB]. split.
  - intros c y m' Hy Hin.
    destruct (put_nowait_lookup a m st c y Hy) as (x & Hx & [->|H]); [by eauto|].
    destruct H as (_ & _ & ->). simpl in Hin.
    apply elem_of_app in Hin as [Hin|Hin]; [by eauto|].
    apply list_elem_of_singleton in Hin. by subst.
  - rewrite timers_put_nowait. exact HB.
Qed.

Lemma new_actor_lookup_inv f st c y :
  actors (set_actors (λ l, l ++ [mkActor f f [] Running []]) st) !! c = Some y →
  actors st !! c = Some y ∨ y = mkActor f f [] Running [].
Proof.
  simpl. intros [H|[_ H]]%lookup_app_Some; [by left|].
  apply list_lookup_singleton_Some in H as [_ <-]. by right.
Qed.

Lemma bounded_run code acts st : bounded st → bounded (run code acts st).
Proof.
  apply (run_keeps code bounded (λ _, True)); try done.
  - intros. by apply bounded_put_nowait.
  - intros a l s. apply bounded_same_mail, same_mail_rawlink.
  - intros a e s. apply bounded_same_mail, same_mail_die.
  - intros f s Hb c y Hy. apply new_actor_lookup_inv in Hy as [Hy| ->]; [by eapply Hb|].
    simpl. lia.
  - intros s Hb. unfold timer_step. destruct (timers s) as [|[a m] rest]; [done|].
    pose proof (bounded_put_nowait a m (set_timers (λ _, rest) s) Hb) as H.
    by destruct (put_nowait _ _ _) as [s2 []].
  - intros a x m rest s _ Hb Hx Hp Hm c y. rewrite lookup_upd_actor.
    case_decide as Hac; [|by apply Hb]. subst c. rewrite Hx. intros [= <-]. simpl.
    specialize (Hb a x Hx). rewrite Hm in Hb. simpl in Hb. lia.
  - intros a v s _. by apply bounded_same_mail, same_mail_upd_actor.
Qed.

Lemma retries_ok_run code acts st : retries_ok st → retries_ok (run code acts st).
Proof.
  apply (run_keeps code retries_ok (λ _, True)); try done.
  - intros. apply retries_ok_put_nowait; [simpl; lia|done].
  - intros a l s. apply retries_ok_same_mail, same_mail_rawlink.
  - intros a e s. apply retries_ok_same_mail, same_mail_die.
  - intros f s [HA HB]. split; [|exact HB]. intros c y m Hy Hm.
    apply new_actor_lookup_inv in Hy as [Hy| ->]; [by eauto|].
    simpl in Hm. by apply elem_of_nil in Hm.
  - intros s Hs. unfold timer_step.
    destruct (timers s) as [|[a m] rest] eqn:Ht; [done|]. destruct Hs as [HA HB].
    assert (retries_ok (set_timers (λ _, rest) s)) as Hok.
    { split; [exact HA|]. simpl. intros c m' Hin. apply (HB c).
      rewrite Ht. by apply list_elem_of_further. }
    assert (retries m ≤ 8) as Hm by (apply (HB a); rewrite Ht; apply list_elem_of_here).
    pose proof (retries_ok_put_nowait a m _ Hm Hok) as H.
    by destruct (put_nowait _ _ _) as [s2 []].
  - intros a x m rest s _ [HA HB] Hx Hp Hm. split; [|exact HB].
    intros c y m'. rewrite lookup_upd_actor.
    case_decide as Hac; [|by apply HA]. subst c. rewrite Hx. intros [= <-]. simpl.
    intros Hin. apply (HA a x); [done|]. rewrite Hm. by apply list_elem_of_further.
  - intros a v s _. by apply retries_ok_same_mail, same_mail_upd_actor.
  - intros a m s [HA HB] Hm. split; [exact HA|]. simpl. intros c m' Hin.
    apply elem_of_app in Hin as [Hin|Hin]; [by eauto|].
    apply list_elem_of_singleton in Hin. by injection Hin as -> ->.
Qed.

(** X1: along every schedule no mailbox ever holds more than
    [MAX_QUEUE_SIZE] messages, so [actor_info] never reports a larger
    [mailbox_size]: every path into a mailbox is a [put_nowait]. *)
Theorem mailboxes_stay_bounded (code : string → FuncDef) (acts : list Action)
    (st : State) (a : nat) (x : Actor) :
  bounded st →
  actors (run code acts st) !! a = Some x →
  length (mailbox x) ≤ 1024 ∧ info_mailbox_size (actor_info_of x) ≤ 1024.
Proof.
  intros Hb Hx. pose proof (bounded_run code acts st Hb a x Hx) as H.
  unfold MAX_QUEUE_SIZE in H. by split.
Qed.

Lemma empty_state_bounded : bounded empty_state.
Proof. intros a x Hx. simpl in Hx. by rewrite lookup_nil in Hx. Qed.

Lemma mailboxes_stay_bounded_witness :
  actors (run StateMachine.code
            (ASpawn Plain Examples.idle [] ∅ :: replicate 1030 (ACall None 0 [] ∅))
            empty_state) !! 0
  = Some (mkActor Examples.idle Examples.idle (replicate 1024 (mkMsg 0 [] ∅))
            Running []) ∧
  length (replicate 1024 (mkMsg 0 [] ∅)) ≤ 1024.
Proof.
  assert (actors (run StateMachine.code
                    (ASpawn Plain Examples.idle [] ∅ ::
                     replicate 1030 (ACall None 0 [] ∅))
                    empty_state) !! 0
          = Some (mkActor Examples.idle Examples.idle (replicate 1024 (mkMsg 0 [] ∅))
                    Running [])) as H by (vm_compute; reflexivity).
  split; [exact H|].
  exact (proj1 (mailboxes_stay_bounded StateMachine.code _ empty_state 0 _
                  empty_state_bounded H)).
Defined.

(** X2: along every schedule no message, waiting in a mailbox or for its
    timer, carries a retry counter above 8: a message is handed to a
    behaviour at most nine times. *)
Theorem retries_stay_bounded (code : string → FuncDef) (acts : list Action)
    (st : State) :
  retries_ok st →
  (∀ a x m, actors (run code acts st) !! a = Some x → m ∈ mailbox x → retries m ≤ 8) ∧
  (∀ a m, (a, m) ∈ timers (run code acts st) → retries m ≤ 8).
Proof. apply retries_ok_run. Qed.

Lemma empty_state_retries_ok : retries_ok empty_state.
Proof.
  split.
  - intros a x m Hx. simpl in Hx. by rewrite lookup_nil in Hx.
  - intros a m H. by apply elem_of_nil in H.
Qed.

Lemma retries_stay_bounded_witness :
  Forall (λ am, retries am.2 ≤ 8)
    (timers (run StateMachine.code
               (ASpawn Plain StateMachine.ping [VQueue 0] ∅ ::
                concat (replicate 7 [AStep 0; ATimer]) ++ [AStep 0])
               empty_state)) ∧
  length (timers (run StateMachine.code
                    (ASpawn Plain StateMachine.ping [VQueue 0] ∅ ::
                     concat (replicate 7 [AStep 0; ATimer]) ++ [AStep 0])
                    empty_state)) = 1.
Proof.
  split; [|vm_compute; reflexivity].
  apply Forall_forall. intros [a m] Hin.
  exact (proj2 (retries_stay_bounded StateMachine.code
                  (ASpawn Plain StateMachine.ping [VQueue 0] ∅ ::
                   concat (replicate 7 [AStep 0; ATimer]) ++ [AStep 0])
                  empty_state empty_state_retries_ok) a m Hin).
Defined.

(** ** Only the owner's loop consumes messages and changes the behaviour *)

Lemma actor_grows_refl x : actor_grows x x.
Proof. by repeat split. Qed.

Lemma actor_grows_trans x y z : actor_grows x y → actor_grows y z → actor_grows x z.
Proof.
  intros (?&?&?) (?&?&?). repeat split; try congruence. by etransitivity.
Qed.

#[global] Instance api_keeps_preorder : PreOrder api_keeps.
Proof.
  split.
  - intros st a x Hx. exists x. split; [done|apply actor_grows_refl].
  - intros s1 s2 s3 H1 H2 a x Hx. destruct (H1 a x Hx) as (y & Hy & Hxy).
    destruct (H2 a y Hy) as (z & Hz & Hyz). exists z. split; [done|].
    by eapply actor_grows_trans.
Qed.

Lemma watch_api_keeps a x st st' : api_keeps st st' → watch a x st → watch a x st'.
Proof.
  intros Hk (y & Hy & Hxy). destruct (Hk a y Hy) as (z & Hz & Hyz).
  exists z. split; [done|]. by eapply actor_grows_trans.
Qed.

Lemma api_keeps_same_actors st st' : actors st' = actors st → api_keeps st st'.
Proof. intros H a x Hx. exists x. rewrite H. split; [done|apply actor_grows_refl]. Qed.

Lemma api_keeps_upd_actor a f st :
  (∀ x, actor_grows x (f x)) → api_keeps st (upd_actor a f st).
Proof.
  intros Hf c x Hx. rewrite lookup_upd_actor. case_decide as Hac.
  - subst c. rewrite Hx. simpl. eauto.
  - exists x. split; [done|apply actor_grows_refl].
Qed.

Lemma api_keeps_put_nowait a m st : api_keeps st (put_nowait a m st).1.
Proof.
  unfold put_nowait. destruct (actors st !! a) as [x|] eqn:Hx; [|done].
  case_bool_decide; [|done]. simpl. intros c y Hy. rewrite lookup_upd_actor.
  case_decide as Hac.
  - subst c. rewrite Hy. simpl. eexists. split; [done|].
    assert (y = x) as -> by congruence. repeat split. simpl. by apply prefix_app_r.
  - exists y. split; [done|apply actor_grows_refl].
Qed.

Lemma api_keeps_rawlink a l st : api_keeps st (rawlink a l st).
Proof.
  unfold rawlink. destruct (actors st !! a) as [x|]; [|done].
  destruct (proc x); [|by apply api_keeps_same_actors].
  apply api_keeps_upd_actor. intros y. by repeat split.
Qed.

Lemma api_keeps_die a e st : api_keeps st (die a e st).
Proof.
  unfold die. destruct (actors st !! a) as [x|]; [|done].
  destruct (proc x); [|done].
  etransitivity; [|by apply api_keeps_same_actors].
  apply api_keeps_upd_actor. intros y. by repeat split.
Qed.

Lemma api_keeps_new f st :
  api_keeps st (set_actors (λ l, l ++ [mkActor f f [] Running []]) st).
Proof.
  intros a x Hx. exists x. split; [|apply actor_grows_refl]. simpl.
  rewrite lookup_app_l; [done|]. by eapply lookup_lt_Some.
Qed.

Lemma api_keeps_timer_step st : api_keeps st (timer_step st).
Proof.
  unfold timer_step. destruct (timers st) as [|[a m] rest]; [done|].
  pose proof (api_keeps_put_nowait a m (set_timers (λ _, rest) st)) as H.
  destruct (put_nowait _ _ _) as [s2 []]; simpl in *.
  - etransitivity; [|exact H]. by apply api_keeps_same_actors.
  - by apply api_keeps_same_actors.
Qed.

(** The calls of a behaviour, the API and the hub change no actor's
    functions and only add messages at the back of mailboxes. *)
Lemma exec_api_keeps me p st : api_keeps st (exec me p st).1.
Proof.
  apply (exec_keeps (api_keeps st)); [..|reflexivity]; intros;
    (etransitivity; [eassumption|]);
    first [apply api_keeps_put_nowait | apply api_keeps_rawlink | apply api_keeps_die
          | apply api_keeps_new | by apply api_keeps_same_actors].
Qed.

Lemma watch_run code acts a x st :
  (∀ c, AStep c ∈ acts → c ≠ a) → watch a x st → watch a x (run code acts st).
Proof.
  apply (run_keeps code (watch a x) (λ c, c ≠ a)).
  - intros. eapply watch_api_keeps; [apply api_keeps_put_nowait|done].
  - intros. eapply watch_api_keeps; [apply api_keeps_rawlink|done].
  - intros. eapply watch_api_keeps; [apply api_keeps_die|done].
  - intros. eapply watch_api_keeps; [apply api_keeps_new|done].
  - intros. eapply watch_api_keeps; [by apply api_keeps_same_actors|done].
  - intros. eapply watch_api_keeps; [by apply api_keeps_same_actors|done].
  - intros. eapply watch_api_keeps; [by apply api_keeps_same_actors|done].
  - intros. eapply watch_api_keeps; [by apply api_keeps_same_actors|done].
  - intros. eapply watch_api_keeps; [apply api_keeps_timer_step|done].
  - intros c y m rest s Hc (z & Hz & Hg) _ _ _. exists z.
    by rewrite lookup_upd_actor_ne.
  - intros c v s Hc (z & Hz & Hg). exists z. by rewrite lookup_upd_actor_ne.
  - intros. eapply watch_api_keeps; [by apply api_keeps_same_actors|done].
Qed.

(** X3: whatever else is scheduled (sends, spawns, kills, the hub, timers,
    the rounds of other actors), as long as actor [a] itself does not run a
    round its [func] and current behaviour stay and its mailbox only gets
    messages at the back; and a round of [a] takes exactly the oldest
    message: what was behind it is still there, in order, in front of
    whatever the round added. *)
Theorem only_the_owner_consumes (code : string → FuncDef) (acts : list Action)
    (st : State) (a : nat) (x : Actor) :
  actors st !! a = Some x →
  ((∀ c, AStep c ∈ acts → c ≠ a) →
   ∃ y, actors (run code acts st) !! a = Some y ∧
        func y = func x ∧ next_func y = next_func x ∧
        mailbox x `prefix_of` mailbox y) ∧
  (∀ m rest, proc x = Running → mailbox x = m :: rest →
   ∃ y, actors (actor_process code a st) !! a = Some y ∧
        rest `prefix_of` mailbox y).
Proof.
  intros Hx. split.
  - intros Hacts. apply (watch_run code acts a x st Hacts).
    exists x. split; [done|apply actor_grows_refl].
  - intros m rest Hp Hm. unfold actor_process. rewrite Hx, Hp, Hm.
    set (args := if self_aware code (next_func x) then _ else _).
    set (st1 := upd_actor a (with_mailbox rest) st).
    assert (actors st1 !! a = Some (with_mailbox rest x)) as Hx1
      by by apply lookup_upd_actor_eq.
    destruct (exec_api_keeps a (invoke code (next_func x) args (msg_kwargs m)) st1
                a _ Hx1) as (y & Hy & _ & _ & Hpre).
    simpl in Hpre.
    assert (∀ s, api_keeps (exec a (invoke code (next_func x) args (msg_kwargs m)) st1).1 s →
                 ∃ z, actors s !! a = Some z ∧ rest `prefix_of` mailbox z) as Hfin.
    { intros s Hs. destruct (Hs a y Hy) as (z & Hz & _ & _ & Hyz).
      exists z. split; [done|]. by etransitivity. }
    destruct (exec _ _ _) as [st2 [v|e|]]; simpl in *.
    + assert (∀ s, actors s = actors (upd_actor a (with_next_func v) st2) →
                   ∃ z, actors s !! a = Some z ∧ rest `prefix_of` mailbox z) as Hn.
      { intros s ->. rewrite (lookup_upd_actor_eq a _ st2 y Hy). eauto. }
      destruct (truthy v); [by apply Hn|].
      destruct (Hn _ eq_refl) as (z & Hz & Hpz).
      destruct (api_keeps_die a None (upd_actor a (with_next_func v) st2) a z Hz)
        as (w & Hw & _ & _ & Hzw).
      exists w. split; [done|]. by etransitivity.
    + destruct (is_TypeError e); [|apply Hfin, api_keeps_die].
      case_bool_decide; apply Hfin; by apply api_keeps_same_actors.
    + by apply Hfin.
Qed.

Lemma only_the_owner_consumes_witness :
  (∃ y, actors (run StateMachine.code
                  [AStep 1; ACall None 0 [VInt 1] ∅; AHub; ATimer;
                   ACall None 0 [VStr KillerJoke] ∅; ACall None 0 [VInt 2] ∅]
                  Examples.two_actors) !! 0 = Some y ∧
        func y = Examples.idle ∧ next_func y = Examples.idle ∧
        [mkMsg 0 [] ∅] `prefix_of` mailbox y) ∧
  (∃ y, actors (actor_process StateMachine.code 0 StateMachine.setup) !! 0 = Some y ∧
        [] `prefix_of` mailbox y).
Proof.
  split.
  - apply (only_the_owner_consumes StateMachine.code
             [AStep 1; ACall None 0 [VInt 1] ∅; AHub; ATimer;
              ACall None 0 [VStr KillerJoke] ∅; ACall None 0 [VInt 2] ∅]
             Examples.two_actors 0
             (mkActor Examples.idle Examples.idle [mkMsg 0 [] ∅] Running [])).
    + reflexivity.
    + intros c Hin.
      repeat (apply elem_of_cons in Hin as [Hin|Hin]; [by (discriminate || injection Hin as ->)|]).
      by apply elem_of_nil in Hin.
  - refine (proj2 (only_the_owner_consumes StateMachine.code [] StateMachine.setup 0
              _ _) (mkMsg 0 [VQueue 0; VInt 5] ∅) [] _ _); reflexivity.
Defined.

(** ** How a round of the loop ends *)

Lemma address_raised_unchanged a me args kwargs st st' e :
  address a me args kwargs st = (st', Raised e) → st' = st.
Proof.
  destruct (actors st !! a) as [x|] eqn:Hx;
    [|unfold address; rewrite Hx; by intros [= <- _]].
  rewrite (address_handle a x) by done.
  destruct (recognized args) as [[]|]; simpl.
  - unfold monitor_branch. destruct (kwargs !! "monitor"); simpl; [done|].
    by intros [= <- _].
  - unfold link_branch. destruct me; simpl; [done|]. by intros [= <- _].
  - unfold trap_link_branch. destruct me; simpl; [done|]. by intros [= <- _].
  - done.
  - done.
  - rewrite (send_branch_spec a x) by done. case_bool_decide; simpl; [done|].
    by intros [= <- _].
Qed.

Lemma proc_status_rawlink c a l st : proc_status c (rawlink a l st) = proc_status c st.
Proof.
  unfold rawlink, proc_status. destruct (actors st !! a) as [x|] eqn:Hx; [|done].
  destruct (proc x) eqn:Hp; [|done]. rewrite lookup_upd_actor.
  case_decide as Hac; [|done]. subst c. by rewrite Hx.
Qed.

Lemma proc_status_new c f st :
  is_Some (actors st !! c) →
  proc_status c (set_actors (λ l, l ++ [mkActor f f [] Running []]) st)
  = proc_status c st.
Proof.
  intros [x Hx]. unfold proc_status. simpl.
  rewrite lookup_app_l; [done|]. by eapply lookup_lt_Some.
Qed.

Lemma spawn_with_raised_running me mode f args kwargs st st' e :
  is_running me st = true →
  spawn_with mode f args kwargs (Some me) st = (st', Raised e) →
  is_running me st' = true.
Proof.
  intros Hr. apply is_running_lookup in Hr as (x & Hx & Hp).
  assert (proc_status me (set_actors (λ l, l ++ [mkActor f f [] Running []]) st)
          = Some Running) as H0.
  { rewrite proc_status_new by eauto. apply proc_status_Some. eauto. }
  assert (∀ s, proc_status me s = Some Running → is_running me s = true) as Hback.
  { intros s Hs. unfold is_running. by apply bool_decide_eq_true. }
  destruct mode; simpl.
  - unfold spawn. intros H. apply address_raised_unchanged in H as ->. by apply Hback.
  - unfold spawn_link, spawn.
    rewrite (address_link_spec _ _ _ _ (new_actor_lookup f st)). simpl.
    intros H. apply address_raised_unchanged in H as ->. apply Hback.
    by rewrite !proc_status_rawlink.
  - unfold spawn_trap_link, spawn.
    rewrite (trap_link_spec _ _ _ _ (new_actor_lookup f st)). simpl.
    intros H. apply address_raised_unchanged in H as ->. apply Hback.
    by rewrite !proc_status_rawlink.
Qed.

(** A behaviour that comes back, with a value or an exception, comes back
    in a greenlet that is still alive. *)
Lemma exec_raise_running me p st e :
  is_running me st = true →
  (exec me p st).2 = ORaise e →
  is_running me (exec me p st).1 = true.
Proof.
  revert st. induction p as [w|e'|a args kwargs k IH|mode f args kwargs k IH|q w k IH];
    intros st Hr; simpl; try done.
  - destruct (address a (Some me) args kwargs st) as [st1 [u|e1]] eqn:Ha.
    + destruct (is_running me st1) eqn:Hr1; [|done]. by apply IH.
    + apply address_raised_unchanged in Ha as ->. done.
  - destruct (spawn_with mode f args kwargs (Some me) st) as [st1 [u|e1]] eqn:Hs.
    + destruct (is_running me st1) eqn:Hr1; [|done]. by apply IH.
    + simpl. intros _. by eapply spawn_with_raised_running.
  - by apply IH.
Qed.

Lemma lookup_die_running a x e st :
  actors st !! a = Some x → proc x = Running →
  actors (die a e st) !! a = Some (with_links [] (with_proc (Done e) x)).
Proof.
  intros Hx Hp. rewrite (die_running a x) by done. simpl.
  rewrite list_lookup_alter, decide_True by done. by rewrite Hx.
Qed.

Lemma exec_killed_dead me p st :
  (exec me p st).2 = OKilled → is_running me (exec me p st).1 = false.
Proof.
  revert st. induction p as [w|e'|a args kwargs k IH|mode f args kwargs k IH|q w k IH];
    intros st; simpl; try done.
  - destruct (address a (Some me) args kwargs st) as [st1 [u|e1]]; [|done].
    destruct (is_running me st1) eqn:Hr1; [by apply IH|done].
  - destruct (spawn_with mode f args kwargs (Some me) st) as [st1 [u|e1]]; [|done].
    destruct (is_running me st1) eqn:Hr1; [by apply IH|done].
  - by apply IH.
Qed.

(** X4: a [TypeError] out of the behaviour, whether the arguments did not
    fit or the behaviour raised it deep inside after making calls, never
    ends the actor: after the round it still runs, with the same
    behaviour. *)
Theorem type_error_never_kills (code : string → FuncDef) (st : State) (a : nat)
    (x : Actor) (m : Msg) (rest : list Msg) :
  actors st !! a = Some x → proc x = Running → mailbox x = m :: rest →
  (exec a (invoke code (next_func x)
             (if self_aware code (next_func x) then VAddr a :: msg_args m
              else msg_args m) (msg_kwargs m))
     (upd_actor a (with_mailbox rest) st)).2 = ORaise TypeError →
  ∃ y, actors (actor_process code a st) !! a = Some y ∧
       proc y = Running ∧ next_func y = next_func x ∧ func y = func x.
Proof.
  intros Hx Hp Hm Hout. unfold actor_process. rewrite Hx, Hp, Hm.
  set (args := if self_aware code (next_func x) then _ else _) in *.
  set (st1 := upd_actor a (with_mailbox rest) st) in *.
  assert (actors st1 !! a = Some (with_mailbox rest x)) as Hx1
    by by apply lookup_upd_actor_eq.
  assert (is_running a st1 = true) as Hr1 by (apply is_running_lookup; eauto).
  pose proof (exec_raise_running a (invoke code (next_func x) args (msg_kwargs m)) st1
                TypeError Hr1 Hout) as Hr2.
  destruct (exec_api_keeps a (invoke code (next_func x) args (msg_kwargs m)) st1
              a _ Hx1) as (y & Hy & Hf & Hn & _).
  destruct (exec _ _ _) as [st2 out]. simpl in *. subst out. simpl.
  apply is_running_lookup in Hr2 as (y' & Hy' & Hpy).
  assert (y' = y) as -> by congruence.
  exists y. split; [by case_bool_decide|]. done.
Qed.

Lemma type_error_never_kills_witness :
  ∃ y, actors (actor_process StateMachine.code 0 Examples.short_ping) !! 0 = Some y ∧
       proc y = Running ∧ next_func y = StateMachine.ping ∧ func y = StateMachine.ping.
Proof.
  apply (type_error_never_kills StateMachine.code Examples.short_ping 0
           (mkActor StateMachine.ping StateMachine.ping [mkMsg 0 [VQueue 0] ∅]
              Running [])
           (mkMsg 0 [VQueue 0] ∅) []); reflexivity.
Defined.

(** X5: how a round ends otherwise.  An exception that is no [TypeError]
    ends the actor with that exception, which [actor_info] then reports; a
    falsy return value ends it successfully, with no exception; any other
    return value becomes the behaviour for the next message and the actor
    runs on. *)
Theorem round_decides_fate (code : string → FuncDef) (st : State) (a : nat)
    (x : Actor) (m : Msg) (rest : list Msg) :
  actors st !! a = Some x → proc x = Running → mailbox x = m :: rest →
  ∃ y, actors (actor_process code a st) !! a = Some y ∧
       match (exec a (invoke code (next_func x)
                        (if self_aware code (next_func x) then VAddr a :: msg_args m
                         else msg_args m) (msg_kwargs m))
                (upd_actor a (with_mailbox rest) st)).2 with
       | ORaise e =>
           is_TypeError e = false →
           proc y = Done (Some e) ∧ info_exception (actor_info_of y) = Some e ∧
           info_running (actor_info_of y) = false ∧
           info_successful (actor_info_of y) = false
       | OReturn v =>
           next_func y = v ∧
           if truthy v then proc y = Running
           else proc y = Done None ∧ info_successful (actor_info_of y) = true ∧
                info_exception (actor_info_of y) = None
       | OKilled => proc y ≠ Running
       end.
Proof.
  intros Hx Hp Hm. unfold actor_process. rewrite Hx, Hp, Hm.
  set (args := if self_aware code (next_func x) then _ else _) in *.
  set (st1 := upd_actor a (with_mailbox rest) st) in *.
  assert (actors st1 !! a = Some (with_mailbox rest x)) as Hx1
    by by apply lookup_upd_actor_eq.
  assert (is_running a st1 = true) as Hr1 by (apply is_running_lookup; eauto).
  pose proof (exec_raise_running a (invoke code (next_func x) args (msg_kwargs m)) st1)
    as Hraise.
  pose proof (exec_return_running a (invoke code (next_func x) args (msg_kwargs m)) st1)
    as Hret.
  destruct (exec_api_keeps a (invoke code (next_func x) args (msg_kwargs m)) st1
              a _ Hx1) as (y & Hy & _).
  destruct (exec a (invoke code (next_func x) args (msg_kwargs m)) st1)
    as [st2 [v|e|]] eqn:Hexec; simpl in *.
  - specialize (Hret v Hr1 eq_refl). apply is_running_lookup in Hret as (y' & Hy' & Hpy).
    assert (y' = y) as -> by congruence.
    assert (actors (upd_actor a (with_next_func v) st2) !! a
            = Some (with_next_func v y)) as Hy3 by by apply lookup_upd_actor_eq.
    destruct (truthy v) eqn:Htv.
    + eexists. split; [exact Hy3|]. done.
    + eexists. split; [by apply (lookup_die_running a _ None _ Hy3)|]. done.
  - specialize (Hraise e Hr1 eq_refl).
    apply is_running_lookup in Hraise as (y' & Hy' & Hpy).
    assert (y' = y) as -> by congruence.
    destruct (is_TypeError e) eqn:Hte.
    + exists y. split; [by case_bool_decide|]. done.
    + eexists. split; [by apply (lookup_die_running a _ (Some e) _ Hy)|]. done.
  - exists y. split; [done|]. intros Hpy.
    pose proof (exec_killed_dead a (invoke code (next_func x) args (msg_kwargs m)) st1)
      as Hk. rewrite Hexec in Hk. specialize (Hk eq_refl).
    assert (is_running a st2 = true) as Hr2 by (apply is_running_lookup; eauto).
    simpl in Hk. congruence.
Qed.

Lemma round_decides_fate_witness :
  ∃ y, actors (actor_process TrapTest.code 1
                 (run TrapTest.code [AStep 0] TrapTest.setup)) !! 1 = Some y ∧
       proc y = Done (Some (OtherError "boom")) ∧
       info_exception (actor_info_of y) = Some (OtherError "boom").
Proof.
  destruct (round_decides_fate TrapTest.code
              (run TrapTest.code [AStep 0] TrapTest.setup) 1
              (mkActor TrapTest.boom TrapTest.boom [mkMsg 0 [] ∅] Running [LTrap 0 1])
              (mkMsg 0 [] ∅) []) as (y & Hy & H); try reflexivity.
  exists y. split; [exact Hy|].
  destruct (H eq_refl) as (H1 & H2 & _). by split.
Defined.

(** ** The registry, seen by its users *)

(** X6: in every state a run reaches from the empty system with the hub
    idle, every name of [registered()] is bound to an actor that runs: no
    name outlives its actor. *)
Theorem registered_actors_run (code : string → FuncDef) (acts : list Action)
    (name : string) (a : nat) :
  pending (run code acts empty_state) = [] →
  registered (run code acts empty_state) !! name = Some a →
  proc_status a (run code acts empty_state) = Some Running ∧
  whereis name (run code acts empty_state) = Some a.
Proof.
  intros Hq Hn. split; [|done].
  destruct (run_registry_ok code acts empty_state empty_state_registry_ok name a Hn)
    as [(x & f & Hx & Hp & _)|(f & d & Hin)].
  - apply proc_status_Some. eauto.
  - rewrite Hq in Hin. by apply elem_of_nil in Hin.
Qed.

Lemma registered_actors_run_witness :
  proc_status 1
    (run StateMachine.code
       [ASpawn Plain Examples.idle [] ∅; ASpawn Plain Examples.idle [] ∅;
        ARegister "mash" 0; ARegister "boil" 1;
        ACall None 0 [VStr KillerJoke] ∅; AHub]
       empty_state) = Some Running ∧
  registered
    (run StateMachine.code
       [ASpawn Plain Examples.idle [] ∅; ASpawn Plain Examples.idle [] ∅;
        ARegister "mash" 0; ARegister "boil" 1;
        ACall None 0 [VStr KillerJoke] ∅; AHub]
       empty_state) = {["boil" := 1]}.
Proof.
  split; [|vm_compute; reflexivity].
  refine (proj1 (registered_actors_run StateMachine.code
            [ASpawn Plain Examples.idle [] ∅; ASpawn Plain Examples.idle [] ∅;
             ARegister "mash" 0; ARegister "boil" 1;
             ACall None 0 [VStr KillerJoke] ∅; AHub] "boil" 1 _ _));
    vm_compute; reflexivity.
Defined.

(** X7: a reference made with [ref(name)] looks the name up when it is
    called.  While the name is free the call raises [TypeError] and does
    nothing; once [register] has bound the name the same reference does
    what the address does; and when the actor is dead and the hub idle (the
    name not registered again) it raises [TypeError] again rather than put
    a message in the dead actor's mailbox. *)
Theorem ref_resolves_at_call_time (code : string → FuncDef) (st : State)
    (name : string) (addr : nat) (x : Actor) (me reg : option nat)
    (args : list Value) (kwargs : Kwargs) :
  registry_ok st →
  actors st !! addr = Some x →
  registry st !! name = None →
  ref name me args kwargs st = (st, Raised TypeError) ∧
  ref name me args kwargs (register name addr reg st).1 =
    address addr me args kwargs (register name addr reg st).1 ∧
  ∀ acts,
    (∀ act, act ∈ acts → registers name act = false) →
    is_running addr (run code acts (register name addr reg st).1) = false →
    pending (run code acts (register name addr reg st).1) = [] →
    ref name me args kwargs (run code acts (register name addr reg st).1) =
      (run code acts (register name addr reg st).1, Raised TypeError).
Proof.
  intros Hok Hx Hn. split; [unfold ref, whereis; by rewrite Hn|].
  assert (registry_ok (register name addr reg st).1) as Hok1.
  { eapply (mutations_registry_ok (λ _, True)); [|exact Hok]. by apply register_mut. }
  revert Hok1. rewrite (register_unbound name addr x) by done. simpl. intros Hok1.
  set (st1 := set_registry _ _) in *.
  assert (registry st1 !! name = Some addr) as H1 by (simpl; by rewrite lookup_insert_eq).
  split; [unfold ref, whereis; by rewrite H1|].
  intros acts Hacts Hdead Hq. unfold ref, whereis.
  assert (mutations (λ n, n ≠ name) st1 (run code acts st1)) as Hm.
  { apply run_mut. intros n act Hin Hr ->. rewrite (Hacts act Hin) in Hr. done. }
  destruct (mutations_binding name _ _ Hm) as [->|H]; [done|].
  rewrite H1 in H. exfalso.
  destruct (mutations_registry_ok _ _ _ Hm Hok1 name addr H)
    as [(y & f & Hy & Hr & _)|(f & d & Hin)].
  - assert (is_running addr (run code acts st1) = true) as Hrun
      by (apply is_running_lookup; eauto).
    congruence.
  - rewrite Hq in Hin. by apply elem_of_nil in Hin.
Qed.

Lemma ref_resolves_at_call_time_witness :
  ref "mash" None [VInt 65] ∅ Examples.one_actor
    = (Examples.one_actor, Raised TypeError) ∧
  ref "mash" None [VInt 65] ∅ (register "mash" 0 None Examples.one_actor).1
    = address 0 None [VInt 65] ∅ (register "mash" 0 None Examples.one_actor).1.
Proof.
  destruct (ref_resolves_at_call_time StateMachine.code Examples.one_actor "mash" 0
              (mkActor Examples.idle Examples.idle [mkMsg 0 [] ∅] Running [])
              None None [VInt 65] ∅ one_actor_registry_ok eq_refl eq_refl)
    as (H1 & H2 & _).
  by split.
Defined.

(** ** spawn, spawn_link and spawn_trap_link *)

Lemma upd_new_actor f g st :
  upd_actor (length (actors st)) g
    (set_actors (λ l, l ++ [mkActor f f [] Running []]) st)
  = set_actors (λ l, l ++ [g (mkActor f f [] Running [])]) st.
Proof.
  unfold upd_actor, set_actors. simpl. f_equal.
  rewrite <- (Nat.add_0_r (length (actors st))) at 1. by rewrite alter_app_r.
Qed.

(** X8: [spawn] with no control token among the positional values never
    raises: it adds one running actor, whose [func] and first behaviour are
    the function given and whose mailbox holds exactly the first message
    [(0, args, kwargs)], returns its address (the next free index), and
    leaves every other actor, the registry and the hub as they were. *)
Theorem spawn_delivers_first_message (f : Value) (args : list Value)
    (kwargs : Kwargs) (me : option nat) (st : State) :
  recognized args = None →
  spawn f args kwargs me st =
  (set_actors (λ l, l ++ [mkActor f f [mkMsg 0 args kwargs] Running []]) st,
   Returned (VAddr (length (actors st)))).
Proof.
  intros Hr. unfold spawn.
  rewrite (address_handle _ _ _ _ _ _ (new_actor_lookup f st)), Hr. simpl.
  rewrite (send_branch_spec _ _ _ _ _ (new_actor_lookup f st)). simpl.
  by rewrite upd_new_actor.
Qed.

Lemma spawn_delivers_first_message_witness :
  spawn StateMachine.ping [VQueue 0; VInt 5] ∅ None Examples.two_actors =
  (set_actors (λ l, l ++ [mkActor StateMachine.ping StateMachine.ping
                            [mkMsg 0 [VQueue 0; VInt 5] ∅] Running []])
     Examples.two_actors,
   Returned (VAddr 2)).
Proof.
  apply (spawn_delivers_first_message StateMachine.ping [VQueue 0; VInt 5] ∅ None
           Examples.two_actors).
  reflexivity.
Defined.

Lemma same_mail_trans s1 s2 s3 : same_mail s1 s2 → same_mail s2 s3 → same_mail s1 s3.
Proof.
  intros [Ht1 H1] [Ht2 H2]. split; [congruence|]. intros a z Hz.
  destruct (H2 a z Hz) as (y & Hy & ->). destruct (H1 a y Hy) as (x & Hx & ->). eauto.
Qed.

Lemma same_mail_refl st : same_mail st st.
Proof. by apply same_mail_same_actors. Qed.

(** A call with a control token changes no mailbox. *)
Lemma token_call_same_mail a me args kwargs st t :
  recognized args = Some t → same_mail st (address a me args kwargs st).1.
Proof.
  intros Hr. destruct (actors st !! a) as [x|] eqn:Hx;
    [|unfold address; rewrite Hx; apply same_mail_refl].
  rewrite (address_handle a x), Hr by done. rewrite except_Full_fst.
  destruct t; simpl.
  - unfold monitor_branch. destruct (kwargs !! "monitor");
      [apply same_mail_rawlink|apply same_mail_refl].
  - unfold link_branch. destruct me; simpl; [|apply same_mail_refl].
    eapply same_mail_trans; apply same_mail_rawlink.
  - unfold trap_link_branch. destruct me; simpl; [|apply same_mail_refl].
    eapply same_mail_trans; apply same_mail_rawlink.
  - apply same_mail_refl.
  - apply same_mail_die.
Qed.

(** X9: [spawn] hands its positional values to the address like any call,
    so with a control token among them the new actor gets no first message:
    it exists, with the function given, and waits with an empty mailbox.
    With [ActorInfo] first in order the result is not an address but the
    snapshot of the new actor (running, nothing waiting); with
    [KillerJoke] the actor is dead with [Killed] before it ever ran. *)
Theorem spawn_with_token_sends_nothing (f : Value) (args : list Value)
    (kwargs : Kwargs) (me : option nat) (st : State) (t : Token) :
  recognized args = Some t →
  ∃ y, actors (spawn f args kwargs me st).1 !! length (actors st) = Some y ∧
       func y = f ∧ next_func y = f ∧ mailbox y = [] ∧
       (t = TActorInfo →
        (spawn f args kwargs me st).2 =
          Returned (VInfo (mkActorInfoTuple [] 0 [] [] true false None None))) ∧
       (t = TKillerJoke →
        proc y = Done (Some Killed) ∧
        (spawn f args kwargs me st).2 = Returned (VAddr (length (actors st)))).
Proof.
  intros Hr. unfold spawn.
  set (s0 := set_actors (λ l, l ++ [mkActor f f [] Running []]) st).
  pose proof (new_actor_lookup f st) as H0. fold s0 in H0.
  destruct (mutations_extends (λ _, True) _ _
              (address_mut _ (length (actors st)) me args kwargs s0) _ _ H0)
    as (y & Hy & Hf & _).
  destruct (token_call_same_mail (length (actors st)) me args kwargs s0 t Hr)
    as [_ Hs].
  destruct (Hs _ _ Hy) as (x & Hx & Hmail).
  assert (x = mkActor f f [] Running []) as -> by congruence.
  exists y. split; [done|]. split; [done|].
  assert (next_func y = f ∧
          (t = TKillerJoke → proc y = Done (Some Killed))) as [Hn Hk].
  { revert Hy. rewrite (address_handle _ _ _ _ _ _ H0), Hr. rewrite except_Full_fst.
    destruct t; cbn [handle].
    - unfold monitor_branch. destruct (kwargs !! "monitor"); cbn [fst].
      + rewrite (rawlink_running _ _ _ _ H0) by done.
        rewrite (lookup_upd_actor_eq _ _ _ _ H0). by intros [= <-].
      + rewrite H0. by intros [= <-].
    - unfold link_branch. destruct me as [b|]; cbn [fst]; [|rewrite H0; by intros [= <-]].
      intros Hy.
      destruct (api_keeps_rawlink b (LKill (length (actors st))) s0 _ _ H0)
        as (z & Hz & _ & Hzn & _).
      destruct (api_keeps_rawlink (length (actors st)) (LKill b) _ _ _ Hz)
        as (w & Hw & _ & Hwn & _).
      assert (w = y) as -> by congruence. split; [by rewrite Hwn, Hzn|done].
    - unfold trap_link_branch.
      destruct me as [b|]; cbn [fst]; [|rewrite H0; by intros [= <-]].
      intros Hy.
      destruct (api_keeps_rawlink b (LKill (length (actors st))) s0 _ _ H0)
        as (z & Hz & _ & Hzn & _).
      destruct (api_keeps_rawlink (length (actors st))
                  (LTrap b (length (actors st))) _ _ _ Hz)
        as (w & Hw & _ & Hwn & _).
      assert (w = y) as -> by congruence. split; [by rewrite Hwn, Hzn|done].
    - unfold actor_info_branch. cbn [fst]. rewrite H0. by intros [= <-].
    - unfold killer_joke_branch, proc_kill. cbn [fst].
      rewrite (lookup_die_running _ _ _ _ H0) by done.
      by intros [= <-]. }
  split; [done|]. split; [by rewrite Hmail|]. split.
  - intros ->. by rewrite (address_handle _ _ _ _ _ _ H0), Hr.
  - intros ->. split; [by apply Hk|]. by rewrite (address_handle _ _ _ _ _ _ H0), Hr.
Qed.

Lemma spawn_with_token_sends_nothing_witness :
  ∃ y, actors (spawn Examples.idle [VInt 4; VStr KillerJoke] ∅ None empty_state).1
         !! 0 = Some y ∧
       mailbox y = [] ∧ proc y = Done (Some Killed).
Proof.
  destruct (spawn_with_token_sends_nothing Examples.idle [VInt 4; VStr KillerJoke] ∅
              None empty_state TKillerJoke eq_refl)
    as (y & Hy & _ & _ & Hm & _ & Hk).
  exists y. split; [exact Hy|]. split; [exact Hm|]. exact (proj1 (Hk eq_refl)).
Defined.

(** X10: [spawn_link] and [spawn_trap_link] called outside an actor (the
    caller's greenlet has no [link_exception]) raise [AttributeError], but
    only after the new actor has been made: it is left running with an
    empty mailbox, the first message is never sent and no address is
    returned. *)
Theorem spawn_link_outside_actor_leaks (f : Value) (args : list Value)
    (kwargs : Kwargs) (st : State) :
  spawn_link f args kwargs None st =
    (set_actors (λ l, l ++ [mkActor f f [] Running []]) st, Raised AttributeError) ∧
  spawn_trap_link f args kwargs None st =
    (set_actors (λ l, l ++ [mkActor f f [] Running []]) st, Raised AttributeError).
Proof.
  unfold spawn_link, spawn_trap_link, spawn.
  by rewrite !(address_handle _ _ _ _ _ _ (new_actor_lookup f st)).
Qed.

(** X11: [spawn_link] called by a running actor [b], with no control token
    among the positional values: the new actor holds the kill of [b] and
    exactly the first message, [b] holds the kill of the new actor, the
    address of the new actor is returned and no other actor is touched.
    [spawn_trap_link] does the same with the trap for [b] in the new
    actor. *)
Theorem spawn_link_installs_then_sends (mode : SpawnMode) (f : Value)
    (args : list Value) (kwargs : Kwargs) (b : nat) (xb : Actor) (st : State) :
  mode ≠ Plain →
  actors st !! b = Some xb → proc xb = Running →
  recognized args = None →
  (spawn_with mode f args kwargs (Some b) st).2 = Returned (VAddr (length (actors st))) ∧
  actors (spawn_with mode f args kwargs (Some b) st).1 !! length (actors st) =
    Some (mkActor f f [mkMsg 0 args kwargs] Running
            [match mode with
             | TrapLinked => LTrap b (length (actors st))
             | _ => LKill b
             end]) ∧
  actors (spawn_with mode f args kwargs (Some b) st).1 !! b =
    Some (with_links (links xb ++ [LKill (length (actors st))]) xb) ∧
  (∀ c, c ≠ b → c ≠ length (actors st) →
        actors (spawn_with mode f args kwargs (Some b) st).1 !! c = actors st !! c) ∧
  pending (spawn_with mode f args kwargs (Some b) st).1 = pending st ∧
  registry (spawn_with mode f args kwargs (Some b) st).1 = registry st.
Proof.
  intros Hmode Hb Hpb Hr.
  set (a := length (actors st)).
  set (s0 := set_actors (λ l, l ++ [mkActor f f [] Running []]) st).
  set (l := match mode with TrapLinked => LTrap b a | _ => LKill b end).
  assert (b ≠ a) as Hba by (apply lookup_lt_Some in Hb; unfold a; lia).
  assert (actors s0 !! a = Some (mkActor f f [] Running [])) as H0
    by apply new_actor_lookup.
  assert (actors s0 !! b = Some xb) as Hb0.
  { unfold s0. simpl. rewrite lookup_app_l; [done|]. by eapply lookup_lt_Some. }
  set (s1 := upd_actor b (with_links (links xb ++ [LKill a])) s0).
  assert (rawlink b (LKill a) s0 = s1) as Hs1 by by apply rawlink_running.
  assert (actors s1 !! a = Some (mkActor f f [] Running [])) as H1
    by (unfold s1; by rewrite lookup_upd_actor_ne).
  set (s2 := upd_actor a (with_links [l]) s1).
  assert (rawlink a l s1 = s2) as Hs2 by by rewrite (rawlink_running _ _ _ _ H1).
  assert (actors s2 !! a = Some (mkActor f f [] Running [l])) as H2
    by (unfold s2; by rewrite (lookup_upd_actor_eq _ _ _ _ H1)).
  set (s3 := upd_actor a (with_mailbox [mkMsg 0 args kwargs]) s2).
  assert (spawn_with mode f args kwargs (Some b) st = (s3, Returned (VAddr a))) as ->.
  { assert (address a (Some b) args kwargs s2 = (s3, Returned (VAddr a))) as Hsend.
    { rewrite (address_handle _ _ _ _ _ _ H2), Hr. simpl.
      by rewrite (send_branch_spec _ _ _ _ _ H2). }
    destruct mode; [done| |]; simpl.
    - unfold spawn_link, spawn. fold a s0.
      rewrite (address_link_spec _ _ _ _ H0). rewrite Hs1. fold l. by rewrite Hs2.
    - unfold spawn_trap_link, spawn. fold a s0.
      rewrite (trap_link_spec _ _ _ _ H0). rewrite Hs1. fold l. by rewrite Hs2. }
  cbn [fst snd]. split; [done|]. split.
  { unfold s3. by rewrite (lookup_upd_actor_eq _ _ _ _ H2). }
  split.
  { unfold s3, s2. rewrite !lookup_upd_actor_ne by done. unfold s1.
    by rewrite (lookup_upd_actor_eq _ _ _ _ Hb0). }
  split; [|done].
  intros c Hcb Hca. unfold s3, s2, s1. rewrite !lookup_upd_actor_ne by done.
  unfold s0. simpl. destruct (decide (c < a)) as [Hlt|Hge].
  - by rewrite lookup_app_l.
  - rewrite !lookup_ge_None_2; [done|unfold a in *; lia|].
    rewrite length_app. simpl. unfold a in *. lia.
Qed.

Lemma spawn_link_installs_then_sends_witness :
  actors (spawn_with TrapLinked TrapTest.boom [] ∅ (Some 0) Examples.one_actor).1 !! 1 =
    Some (mkActor TrapTest.boom TrapTest.boom [mkMsg 0 [] ∅] Running [LTrap 0 1]) ∧
  actors (spawn_with TrapLinked TrapTest.boom [] ∅ (Some 0) Examples.one_actor).1 !! 0 =
    Some (mkActor Examples.idle Examples.idle [mkMsg 0 [] ∅] Running [LKill 1]).
Proof.
  destruct (spawn_link_installs_then_sends TrapLinked TrapTest.boom [] ∅ 0
              (mkActor Examples.idle Examples.idle [mkMsg 0 [] ∅] Running [])
              Examples.one_actor) as (_ & H1 & H2 & _).
  - discriminate.
  - reflexivity.
  - reflexivity.
  - reflexivity.
  - split; [exact H1|exact H2].
Defined.

(** ** Calls with a control token *)

Lemma address_api_keeps a me args kwargs st : api_keeps st (address a me args kwargs st).1.
Proof.
  apply (address_keeps (api_keeps st)); [..|reflexivity]; intros;
    (etransitivity; [eassumption|]);
    first [apply api_keeps_put_nowait | apply api_keeps_rawlink | apply api_keeps_die].
Qed.

(** X12: a call whose positional values contain a control token (or a text
    equal to one) delivers nothing: whatever else is passed along, no
    mailbox of the system changes. *)
Theorem token_call_delivers_nothing (a : nat) (me : option nat) (args : list Value)
    (kwargs : Kwargs) (st : State) (t : Token) (c : nat) :
  recognized args = Some t →
  mailbox <$> actors (address a me args kwargs st).1 !! c = mailbox <$> actors st !! c.
Proof.
  intros Hr. destruct (token_call_same_mail a me args kwargs st t Hr) as [_ Hs].
  destruct (actors st !! c) as [x|] eqn:Hx.
  - destruct (address_api_keeps a me args kwargs st c x Hx) as (y & Hy & _).
    destruct (Hs c y Hy) as (x' & Hx' & Hm). rewrite Hy. simpl.
    assert (x' = x) as -> by congruence. by rewrite Hm.
  - destruct (actors (address a me args kwargs st).1 !! c) as [y|] eqn:Hy; [|done].
    destruct (Hs c y Hy) as (x' & Hx' & _). congruence.
Qed.

Lemma token_call_delivers_nothing_witness :
  mailbox <$> actors (address 0 None [VStr "hello"; VStr "__Monitor__"; VInt 3]
                        {["monitor" := VAddr 1]} Examples.two_actors).1 !! 0
  = mailbox <$> actors Examples.two_actors !! 0.
Proof.
  apply (token_call_delivers_nothing 0 None [VStr "hello"; VStr "__Monitor__"; VInt 3]
           {["monitor" := VAddr 1]} Examples.two_actors TMonitor 0).
  reflexivity.
Defined.

(** ** The hub comes to rest *)

(** X13: the notifications of the hub always run out.  One step for each
    notification waiting and each link of an actor that still runs is
    enough, because a callback of the address only kills, sends or removes
    a name and never makes a new link; after that the hub has nothing to
    do.  So a cascade of kills along links ends, also between actors
    linked to each other in a circle. *)
Theorem hub_comes_to_rest (st : State) :
  pending (drain (hub_work st) st) = [] ∧
  hub_step (drain (hub_work st) st) = drain (hub_work st) st ∧
  hub_work st = length (pending st) + sum_list (live_links <$> actors st).
Proof.
  assert (pending (drain (hub_work st) st) = []) as H by by apply drain_quiescent.
  split; [done|]. split; [|done]. unfold hub_step. by rewrite H.
Qed.

(** ** Monitoring and linking a dead actor *)

Lemma rawlink_dead a l x e st :
  actors st !! a = Some x → proc x = Done e →
  rawlink a l st = set_pending (λ p, p ++ [(l, a)]) st.
Proof. intros Hx Hp. unfold rawlink. by rewrite Hx, Hp. Qed.



(** X15: linking to a dead actor.  When the actor [a] died with an
    exception, the caller [b] of [link(a)] is killed with [KilledByLink]
    as soon as the hub has run; when [a] had ended normally, [b] is not
    killed and only keeps the useless link. *)
Theorem link_to_dead_actor (st : State) (a b : nat) (xa xb : Actor)
    (e : option Exn) (fuel : nat) :
  a ≠ b →
  actors st !! a = Some xa → proc xa = Done e →
  actors st !! b = Some xb → proc xb = Running →
  quiet st → hub_work st + 1 < fuel →
  match e with
  | Some _ =>
      proc_status b (drain fuel (link a (Some b) st).1) = Some (Done (Some KilledByLink))
  | None =>
      pending st = [] →
      ∃ y, actors (drain fuel (link a (Some b) st).1) !! b = Some y ∧
           same_but_mailbox (with_links (links xb ++ [LKill a]) xb) y
  end.
Proof.
  intros Hab Hxa Hpa Hxb Hpb Hq Hw. rewrite (link_spec a xa) by done. simpl.
  rewrite (rawlink_running b _ xb) by done.
  set (s1 := upd_actor b (with_links (links xb ++ [LKill a])) st).
  assert (actors s1 !! a = Some xa) as Hxa1 by (unfold s1; by rewrite lookup_upd_actor_ne).
  assert (actors s1 !! b = Some (with_links (links xb ++ [LKill a]) xb)) as Hxb1
    by (unfold s1; by apply lookup_upd_actor_eq).
  rewrite (rawlink_dead a _ xa e) by done.
  set (s2 := set_pending _ s1).
  assert (quiet s2) as Hq2.
  { destruct Hq as [HA HB]. split.
    - intros c y mon f. unfold s2, s1. simpl. rewrite list_lookup_alter.
      case_decide as Hbc.
      + subst c. rewrite Hxb. simpl. intros [= <-]. simpl.
        rewrite elem_of_app, list_elem_of_singleton. intros [H|H]; [by eapply HA|done].
      + apply HA.
    - intros mon f d. unfold s2. simpl.
      rewrite elem_of_app, list_elem_of_singleton. intros [H|H]; [by eapply HB|done]. }
  assert (hub_work s2 ≤ fuel) as Hw2.
  { unfold s2, hub_work. simpl. rewrite length_app. simpl.
    pose proof (hub_work_rawlink_running b (LKill a) xb st Hxb Hpb) as H.
    rewrite (rawlink_running b _ xb) in H by done. unfold hub_work in H. simpl in H.
    unfold hub_work in Hw. lia. }
  destruct e as [e|].
  - apply doomed_dies; [done| |done]. right. split.
    + apply proc_status_Some. eauto.
    + exists a, e. split.
      * unfold s2. simpl. apply elem_of_app. right. by apply list_elem_of_singleton.
      * apply proc_status_Some. eauto.
  - intros Hp.
    assert (proc_status a s2 = Some (Done None)) as Hda
      by (apply proc_status_Some; exists xa; by split).
    assert (pending s2 = [(LKill b, a)]) as Hp2 by (unfold s2; simpl; by rewrite Hp).
    destruct (calm_drain fuel s2 Hq2) as [_ Hc].
    + rewrite Hp2. intros n ->%list_elem_of_singleton.
      left. unfold skipped. cbn [fst snd]. by rewrite Hda.
    + by apply Hc.
Qed.

Lemma link_to_dead_actor_witness :
  proc_status 1 (drain 3 (link 0 (Some 1) (kill 0 None Examples.two_actors).1).1)
  = Some (Done (Some KilledByLink)).
Proof.
  apply (link_to_dead_actor (kill 0 None Examples.two_actors).1 0 1
           (mkActor Examples.idle Examples.idle [mkMsg 0 [] ∅] (Done (Some Killed)) [])
           (mkActor Examples.idle Examples.idle [mkMsg 0 [] ∅] Running [])
           (Some Killed) 3).
  - lia.
  - reflexivity.
  - reflexivity.
  - reflexivity.
  - reflexivity.
  - apply quietb_sound. vm_compute. reflexivity.
  - vm_compute. lia.
Defined.


(** ** Normal termination *)



(** ** Chains of links *)

Lemma threatened_pending st c : threatened st c → pending st ≠ [].
Proof.
  induction 1 as [c d e Hin _|]; [|done]. intros Hp. rewrite Hp in Hin.
  by apply elem_of_nil in Hin.
Qed.

Lemma reaches_running st a b :
  reaches st a b → ∃ x, actors st !! a = Some x ∧ proc x = Running.
Proof. induction 1 as [b (x & ? & ? & _)|]; eauto. Qed.

Lemma die_threatens a e st b :
  reaches st a b → b = a ∨ threatened (die a (Some e) st) b.
Proof.
  intros Hr. destruct (reaches_running st a b Hr) as (xa & Hxa & Hpa).
  assert (proc_status a (die a (Some e) st) = Some (Done (Some e))) as Hd.
  { rewrite proc_status_die. rewrite bool_decide_eq_true_2; [done|].
    split; [done|]. apply proc_status_Some. eauto. }
  assert (∀ b, holds_kill st a b → threatened (die a (Some e) st) b) as Hfirst.
  { intros b' (x & Hx & _ & Hin). assert (x = xa) as -> by congruence.
    apply (threatened_now _ b' a e); [|done].
    rewrite (die_running a xa) by done. simpl. apply elem_of_app. right.
    apply list_elem_of_fmap. by exists (LKill b'). }
  induction Hr as [b Hk|c b _ IH Hk]; [right; by apply Hfirst|].
  right. destruct IH as [->|IH]; [by apply Hfirst|].
  destruct (decide (c = a)) as [->|Hca]; [by apply Hfirst|].
  apply (threatened_via _ c b); [|done].
  destruct Hk as (x & Hx & Hp & Hin). exists x. by rewrite lookup_die_ne.
Qed.

Lemma hub_step_threatened st c :
  quiet st → threatened st c → proc_status c st = Some Running →
  proc_status c (hub_step st) = Some (Done (Some KilledByLink)) ∨
  (proc_status c (hub_step st) = Some Running ∧ threatened (hub_step st) c).
Proof.
  intros Hq Ht. induction Ht as [c d e Hin Hd|b c Hk Ht IH]; intros Hr.
  - assert (doomed c st) as Hdo by (right; eauto).
    assert (pending st ≠ []) as Hne.
    { intros Hp. rewrite Hp in Hin. by apply elem_of_nil in Hin. }
    destruct (hub_step_doomed c st Hq Hdo Hne) as [H|(H & d' & e' & Hin' & Hd')];
      [by left|right].
    split; [done|]. by apply (threatened_now _ c d' e').
  - destruct Hk as (x & Hx & Hp & Hin).
    assert (proc_status b st = Some Running) as Hrb by (apply proc_status_Some; eauto).
    specialize (IH Hrb).
    destruct (pending st) as [|n rest] eqn:Hpe.
    { exfalso. by apply (threatened_pending st b). }
    destruct (hub_step_cases n rest st Hpe Hq)
      as [(t & Hn & Hs & Heq)|(_ & Hp' & Hc)].
    + rewrite Heq in *. clear Heq.
      set (s0 := set_pending (λ _, rest) st) in *.
      assert (actors s0 !! b = Some x) as Hx0 by done.
      destruct (decide (t = c)) as [->|Htc].
      { left. rewrite proc_status_die. by rewrite bool_decide_eq_true_2. }
      right. split.
      { rewrite proc_status_die. rewrite bool_decide_eq_false_2; [done|].
        intros [? _]. congruence. }
      destruct (decide (t = b)) as [->|Htb].
      * apply (threatened_now _ c b KilledByLink).
        -- rewrite (die_running b x) by done. simpl. apply elem_of_app. right.
           apply list_elem_of_fmap. by exists (LKill c).
        -- rewrite proc_status_die. by rewrite bool_decide_eq_true_2.
      * destruct IH as [IH|[_ IH]].
        { rewrite proc_status_die in IH. rewrite bool_decide_eq_false_2 in IH.
          - change (proc_status b s0) with (proc_status b st) in IH. congruence.
          - intros [? _]. congruence. }
        apply (threatened_via _ b c); [|done].
        exists x. by rewrite lookup_die_ne.
    + right. split; [by rewrite (proc_status_calm st)|].
      destruct IH as [IH|[_ IH]].
      { rewrite (proc_status_calm st) in IH by done. congruence. }
      apply (threatened_via _ b c); [|done].
      destruct Hc as [_ Hc]. destruct (Hc b x Hx) as (y & Hy & _ & _ & Hpy & Hly & _).
      exists y. rewrite Hpy, Hly. done.
Qed.

(** X17: a failure runs along a whole chain of links.  When [b] is reached
    from [a] over any number of kill links held by running actors (as in a
    row of actors each started with [spawn_link] by the one before) and
    [a] dies with an exception, then [b], if it still runs, is dead with
    [KilledByLink] once the hub has run. *)
Theorem failure_runs_along_links (st : State) (a b : nat) (e : Exn) (fuel : nat) :
  quiet st → reaches st a b → b ≠ a →
  proc_status b st = Some Running →
  hub_work st ≤ fuel →
  proc_status b (drain fuel (die a (Some e) st)) = Some (Done (Some KilledByLink)).
Proof.
  intros Hq Hr Hba Hb Hw.
  set (P := λ s, quiet s ∧
                 (proc_status b s = Some (Done (Some KilledByLink)) ∨
                  (proc_status b s = Some Running ∧ threatened s b))).
  assert (P (drain fuel (die a (Some e) st))) as [_ [H|[_ H]]].
  { apply drain_invariant.
    - intros s [Hqs Hs] _. split; [by apply hub_step_quiet|].
      destruct Hs as [Hs|[Hs Ht]]; [left; by apply hub_step_dead|].
      by apply hub_step_threatened.
    - split; [by apply quiet_die|]. right. split.
      + rewrite proc_status_die. rewrite bool_decide_eq_false_2; [done|].
        intros [? _]. done.
      + by destruct (die_threatens a e st b Hr) as [?|?]. }
  - done.
  - apply threatened_pending in H. exfalso. apply H.
    apply drain_quiescent. by rewrite hub_work_die.
Qed.

Lemma failure_runs_along_links_witness :
  proc_status 2 (drain 4 (die 0 (Some (OtherError "end")) linked_row))
  = Some (Done (Some KilledByLink)).
Proof.
  apply (failure_runs_along_links linked_row 0 2 (OtherError "end") 4).
  - apply quietb_sound. vm_compute. reflexivity.
  - apply (reaches_more _ _ 1 2).
    + apply reaches_link. eexists. split; [reflexivity|]. split; [reflexivity|].
      apply list_elem_of_here.
    + eexists. split; [reflexivity|]. split; [reflexivity|].
      apply list_elem_of_further, list_elem_of_here.
  - lia.
  - reflexivity.
  - vm_compute. lia.
Defined.

(** ** The place of a message that is tried again *)

(** X18: a message that is tried again loses its place.  The round that
    fails with a [TypeError] takes the message from the front and leaves it
    to a timer; a message sent in the meantime is in front of it when the
    timer puts it back at the end.  When that send has filled the mailbox,
    the timer's [put_nowait] fails in the hub and the message is lost. *)
Theorem retried_message_loses_its_place (code : string → FuncDef) (st : State)
    (a : nat) (x : Actor) (m : Msg) (rest : list Msg) (me : option nat)
    (args : list Value) (kwargs : Kwargs) :
  actors st !! a = Some x → proc x = Running → mailbox x = m :: rest →
  length (mailbox x) ≤ MAX_QUEUE_SIZE →
  invoke code (next_func x)
    (if self_aware code (next_func x) then VAddr a :: msg_args m else msg_args m)
    (msg_kwargs m) = PRaise TypeError →
  retries m < 8 → timers st = [] → recognized args = None →
  let again :=
    mkMsg (retries m + 1)
      (if self_aware code (next_func x) then VAddr a :: msg_args m else msg_args m)
      (msg_kwargs m) in
  let st1 := actor_process code a st in
  let st2 := (address a me args kwargs st1).1 in
  let st3 := timer_step st2 in
  timers st1 = [(a, again)] ∧
  mailbox <$> actors st1 !! a = Some rest ∧
  timers st3 = [] ∧
  mailbox <$> actors st3 !! a =
    Some (rest ++ mkMsg 0 args kwargs ::
            (if bool_decide (length rest + 1 < MAX_QUEUE_SIZE) then [again] else [])) ∧
  (length rest + 1 = MAX_QUEUE_SIZE → log st3 = log st ++ [EvHubError Full]).
Proof.
  intros Hx Hp Hm Hlen Hi Hr Ht Hrec. cbn zeta.
  rewrite (actor_process_mismatch code a x m rest) by done. cbn zeta.
  rewrite bool_decide_eq_true_2 by done.
  set (again := mkMsg _ _ _).
  set (s0 := upd_actor a (with_mailbox rest) st).
  set (s1 := set_timers _ s0).
  assert (actors s1 !! a = Some (with_mailbox rest x)) as Hx1
    by (by apply lookup_upd_actor_eq).
  assert (timers s1 = [(a, again)]) as Ht1 by (unfold s1; simpl; by rewrite Ht).
  split; [done|]. split; [by rewrite Hx1|].
  rewrite Hm in Hlen. simpl in Hlen.
  rewrite (address_handle a _ me args kwargs s1 Hx1), Hrec, except_Full_fst.
  cbn [handle]. rewrite (send_branch_spec a _ args kwargs s1 Hx1).
  change (mailbox (with_mailbox rest x)) with rest.
  rewrite bool_decide_eq_true_2 by lia. cbn [fst].
  set (s2 := upd_actor a _ s1).
  assert (actors s2 !! a
          = Some (with_mailbox (rest ++ [mkMsg 0 args kwargs]) x)) as Hx2.
  { unfold s2. by rewrite (lookup_upd_actor_eq a _ s1 _ Hx1). }
  assert (timers s2 = [(a, again)]) as Ht2 by done.
  unfold timer_step. rewrite Ht2.
  set (s3 := set_timers (λ _, []) s2).
  assert (actors s3 !! a
          = Some (with_mailbox (rest ++ [mkMsg 0 args kwargs]) x)) as Hx3 by done.
  unfold put_nowait. rewrite Hx3.
  change (mailbox (with_mailbox (rest ++ [mkMsg 0 args kwargs]) x))
    with (rest ++ [mkMsg 0 args kwargs]).
  rewrite length_app. change (length [mkMsg 0 args kwargs]) with 1.
  case_bool_decide as Hfull.
  - split; [done|]. split; [|lia].
    rewrite (lookup_upd_actor_eq a _ s3 _ Hx3). simpl.
    by rewrite <- app_assoc.
  - split; [done|]. split; [|done].
    change (actors (add_log (EvHubError Full) s3) !! a) with (actors s3 !! a).
    by rewrite Hx3.
Qed.

Lemma retried_message_loses_its_place_witness :
  mailbox <$> actors (timer_step (address 0 None [VInt 7] ∅
                        (actor_process StateMachine.code 0 Examples.short_ping)).1) !! 0
  = Some [mkMsg 0 [VInt 7] ∅; mkMsg 1 [VAddr 0; VQueue StateMachine.response] ∅].
Proof.
  refine (proj1 (proj2 (proj2 (proj2
    (retried_message_loses_its_place StateMachine.code Examples.short_ping 0
       (mkActor StateMachine.ping StateMachine.ping
          [mkMsg 0 [VQueue StateMachine.response] ∅] Running [])
       (mkMsg 0 [VQueue StateMachine.response] ∅) [] None [VInt 7] ∅
       _ _ _ _ _ _ _ _))))).
  - reflexivity.
  - reflexivity.
  - reflexivity.
  - vm_compute. lia.
  - vm_compute. reflexivity.
  - simpl. lia.
  - reflexivity.
  - reflexivity.
Defined.
